(** * futuread-obsidian: the prediction-market engine of [PredictionView.ts]

    A shallow embedding of the class [MarketLogic] (pool invariant, odds
    derivation, trade ledger, replay) and of the load path of
    [PredictionView] ([setViewData], the data part of [drawMe], and the
    two click handlers that call into the ledger).

    JavaScript's [number] is kept abstract behind the interface
    [JSNumber]: the engine only ever combines numbers with the host's
    arithmetic and [Math] functions, so every structural fact is proved
    for an arbitrary interpretation of these operations.  Two
    interpretations are given: [Double_number], the IEEE-754 binary64
    numbers that the program runs on, and [R_number], the real numbers
    in which the specification words its formulas.  What the program
    does on a given ledger is computed in the first; the second says
    what the formulas would give without rounding. *)

From Stdlib Require Import List String ZArith Arith Bool Lia.
From Stdlib Require Import Sorted Permutation.
From Stdlib Require Import Reals Lra.
From Stdlib Require Floats.
Import ListNotations.

Set Implicit Arguments.
Set Warnings "-register-all".

(** ** The host language *)

(** What a JavaScript statement completes with: a value, or a thrown
    exception.  Methods below are state transformers that return the
    completion together with the state of [this] at that point, so that a
    throw leaves the object as it was when the exception was raised. *)
Inductive JSError : Type :=
| Error (msg : string)
| TypeError
| SyntaxError.

Inductive Completion (A : Type) : Type :=
| Normal (a : A)
| Throw (e : JSError).

Arguments Normal {A} a.
Arguments Throw {A} e.

Definition bindC {A B : Type} (c : Completion A) (f : A -> Completion B)
  : Completion B :=
  match c with
  | Normal a => f a
  | Throw e => Throw e
  end.

Notation "x <- c ;; f" := (bindC c (fun x => f))
  (at level 61, c at next level, right associativity).

(** [try { c } catch (e) { h }] for a handler that ignores [e]. *)
Definition try_catch {A : Type} (c : Completion A) (h : A) : A :=
  match c with
  | Normal a => a
  | Throw _ => h
  end.

(** The arithmetic of [number] and the part of [Math] the engine calls. *)
Class JSNumber (num : Type) : Type := {
  num_of_Z : Z -> num;              (* integer literals: 0, 2, 512 *)
  num_add : num -> num -> num;      (* a + b *)
  num_sub : num -> num -> num;      (* a - b *)
  num_mul : num -> num -> num;      (* a * b *)
  num_div : num -> num -> num;      (* a / b *)
  num_neg : num -> num;             (* -a *)
  num_gtb : num -> num -> bool;     (* a > b *)
  num_leb : num -> num -> bool;     (* a <= b *)
  num_eqb : num -> num -> bool;     (* a === b *)
  isNaN : num -> bool;
  Math_log2 : num -> num;
  Math_pow : num -> num -> num;
  Math_abs : num -> num;
  Math_min : num -> num -> num
}.

Declare Scope num_scope.
Delimit Scope num_scope with num.
Infix "+" := num_add : num_scope.
Infix "-" := num_sub : num_scope.
Infix "*" := num_mul : num_scope.
Infix "/" := num_div : num_scope.

(** ** [Map<number, V>]

    A JavaScript [Map] iterates in insertion order, and [set] on a key
    that is present replaces the value where it stands.  The keys the
    engine uses are ledger sizes, hence natural numbers. *)
Module JSMap.
Section WithValue.
Variable V : Type.

Definition t : Type := list (nat * V).

Definition empty : t := [].

Definition size (m : t) : nat := List.length m.

Fixpoint get (m : t) (key : nat) : option V :=
  match m with
  | [] => None
  | (k0, v) :: rest => if Nat.eqb k0 key then Some v else get rest key
  end.

Definition has (m : t) (key : nat) : bool :=
  match get m key with
  | Some _ => true
  | None => false
  end.

Fixpoint set (m : t) (key : nat) (v : V) : t :=
  match m with
  | [] => [(key, v)]
  | (k0, x) :: rest =>
      if Nat.eqb k0 key then (k0, v) :: rest
      else (k0, x) :: set rest key v
  end.

Definition entries (m : t) : list (nat * V) := m.

Definition keys (m : t) : list nat := map fst m.

(** [Array.prototype.sort(([a], [b]) => a - b)]: ascending by key and
    stable; written as an insertion sort. *)
Fixpoint insert_by_key (e : nat * V) (l : list (nat * V)) : list (nat * V) :=
  match l with
  | [] => [e]
  | x :: rest =>
      if Nat.leb (fst e) (fst x) then e :: l
      else x :: insert_by_key e rest
  end.

Definition sort_by_key (l : list (nat * V)) : list (nat * V) :=
  fold_right insert_by_key [] l.

(** The order of the sort. *)
Definition key_le (a b : nat * V) : Prop := fst a <= fst b.
End WithValue.
End JSMap.

(** ** [MarketLogic] *)

Inductive Direction : Type := YES | NO.

Definition Direction_eqb (a b : Direction) : bool :=
  match a, b with
  | YES, YES | NO, NO => true
  | _, _ => false
  end.

Section Engine.
Context {num : Type} {JSNum : JSNumber num}.
Local Open Scope num_scope.

Record Size : Type := mkSize {
  mana : num;
  direction : Direction
}.

Record Bet : Type := mkBet {
  timestamp : string;
  size : Size;
  comment : option string;
  sharesReceived : num;
  log2oddsBefore : num;
  log2oddsAfter : num
}.

Record MarketLogic : Type := mkMarketLogic {
  pool : num * num;              (* [YES pool, NO pool] *)
  k : num;                       (* log2(y) * log2(n) *)
  bets : JSMap.t Bet
}.

Definition set_pool (this : MarketLogic) (p : num * num) : MarketLogic :=
  {| pool := p; k := k this; bets := bets this |}.

Definition set_bets (this : MarketLogic) (b : JSMap.t Bet) : MarketLogic :=
  {| pool := pool this; k := k this; bets := b |}.

(** [constructor()] *)
Definition new_MarketLogic : MarketLogic :=
  let p := (num_of_Z 512, num_of_Z 512) in
  {| pool := p;
     k := Math_log2 (fst p) * Math_log2 (snd p);
     bets := JSMap.empty Bet |}.

(** [poolBet(amount, flip)]: returns the shares and the updated object. *)
Definition poolBet (amount : num) (flip : bool) (this : MarketLogic)
  : num * MarketLogic :=
  let '(y, n) := pool this in
  let y := y + amount in
  let n := n + amount in
  if negb flip then
    let niy := k this / Math_log2 n in
    let newY := Math_pow (num_of_Z 2) niy in
    let shares := y - newY in
    let newN := n in
    (shares, set_pool this (newY, newN))
  else
    let nin := k this / Math_log2 y in
    let newN := Math_pow (num_of_Z 2) nin in
    let shares := n - newN in
    let newY := y in
    (shares, set_pool this (newY, newN)).

Record OddsState : Type := mkOddsState {
  log2odds : num;
  probability : num
}.

(** [computeState()] *)
Definition computeState (this : MarketLogic) : OddsState :=
  let '(y, n) := pool this in
  let logY := Math_log2 y in
  let logN := Math_log2 n in
  let probability := (n * logN) / (n * logN + y * logY) in
  let log2odds := Math_log2 (probability / (num_of_Z 1 - probability)) in
  {| log2odds := log2odds; probability := probability |}.

Record ReplayResult : Type := mkReplayResult {
  yesShares : num;
  noShares : num;
  res_mana : num;                (* field [mana] of the result *)
  res_bets : list Bet            (* field [bets] of the result *)
}.

(** The locals of [replay]: [sy], [sn], [mana], [updatedBets]. *)
Record ReplayLocals : Type := mkReplayLocals {
  sy : num;
  sn : num;
  acc_mana : num;
  updatedBets : list Bet
}.

(** One turn of the [for] loop of [replay]. *)
Definition replay_body (entry : nat * Bet) (st : ReplayLocals * MarketLogic)
  : ReplayLocals * MarketLogic :=
  let '(loc, this) := st in
  let bet := snd entry in
  let oddsBefore := log2odds (computeState this) in
  let amount := mana (size bet) in
  let flip := Direction_eqb (direction (size bet)) NO in
  let '(shares, this) := poolBet (Math_abs amount) flip this in
  let oddsAfter := log2odds (computeState this) in
  let updated :=
    {| timestamp := timestamp bet;
       size := size bet;
       comment := comment bet;
       sharesReceived := shares;
       log2oddsBefore := oddsBefore;
       log2oddsAfter := oddsAfter |} in
  if flip then
    ({| sy := sy loc;
        sn := sn loc + shares;
        acc_mana := acc_mana loc + amount;
        updatedBets := updatedBets loc ++ [updated] |}, this)
  else
    ({| sy := sy loc + shares;
        sn := sn loc;
        acc_mana := acc_mana loc - amount;
        updatedBets := updatedBets loc ++ [updated] |}, this).

Definition replay_loop (entries : list (nat * Bet))
    (st : ReplayLocals * MarketLogic) : ReplayLocals * MarketLogic :=
  fold_left (fun st entry => replay_body entry st) entries st.

(** [replay()] *)
Definition replay (this : MarketLogic) : ReplayResult * MarketLogic :=
  let this := set_pool this (num_of_Z 512, num_of_Z 512) in
  let loc0 := {| sy := num_of_Z 0; sn := num_of_Z 0;
                 acc_mana := num_of_Z 0; updatedBets := [] |} in
  let '(loc, this) :=
    replay_loop (JSMap.sort_by_key (JSMap.entries (bets this))) (loc0, this) in
  let redeemed := Math_min (sy loc) (sn loc) in
  ({| yesShares := sy loc - redeemed;
      noShares := sn loc - redeemed;
      res_mana := acc_mana loc;
      res_bets := updatedBets loc |}, this).

(** [updateBet(lt, amount, direction, comment?)]: the stored object is
    mutated in place, which is [set] on a key that is present. *)
Definition updateBet (lt : nat) (amount : num) (dir : Direction)
    (cmt : option string) (this : MarketLogic)
  : Completion Bet * MarketLogic :=
  if negb (JSMap.has (bets this) lt) then
    (Throw (Error "Bet not found"), this)
  else
    match JSMap.get (bets this) lt with
    | Some bet =>
        let bet' :=
          {| timestamp := timestamp bet;
             size := {| mana := amount; direction := dir |};
             comment := cmt;
             sharesReceived := sharesReceived bet;
             log2oddsBefore := log2oddsBefore bet;
             log2oddsAfter := log2oddsAfter bet |} in
        (Normal bet', set_bets this (JSMap.set (bets this) lt bet'))
    | None => (Throw TypeError, this)   (* [get(lt)!] on a missing key *)
    end.

(** [placeBet(amount, direction, comment?, timestamp?)]; [now] is the
    value of [new Date().toISOString()] at the call. *)
Definition placeBet (now : string) (amount : num) (dir : Direction)
    (cmt : option string) (ts : option string) (this : MarketLogic)
  : Bet * MarketLogic :=
  let lt := JSMap.size (bets this) in
  let bet :=
    {| timestamp := match ts with Some t0 => t0 | None => now end;
       size := {| mana := amount; direction := dir |};
       comment := cmt;
       sharesReceived := num_of_Z 0;
       log2oddsBefore := num_of_Z 0;
       log2oddsAfter := num_of_Z 0 |} in
  (bet, set_bets this (JSMap.set (bets this) lt bet)).

(** [getPool()] *)
Definition getPool (this : MarketLogic) : num * num := pool this.
End Engine.

Arguments Size : clear implicits.
Arguments Bet : clear implicits.
Arguments MarketLogic : clear implicits.
Arguments OddsState : clear implicits.
Arguments ReplayResult : clear implicits.
Arguments ReplayLocals : clear implicits.

(** ** [PredictionView]: loading a document and the calls into the ledger

    [JSON.parse] yields a value of any shape: TypeScript's annotation
    [MarketData] is erased at run time.  A document is therefore a [json]
    value, a JavaScript value read out of it is [option json] ([None] is
    [undefined]) and reading a property follows the language: it throws a
    [TypeError] on [undefined] and [null] and yields [undefined] for a
    property that is not there. *)
Section View.
Context {num : Type} {JSNum : JSNumber num}.
Local Open Scope string_scope.

Inductive json : Type :=
| JNull
| JBool (b : bool)
| JNum (x : num)
| JStr (s : string)
| JArr (items : list json)
| JObj (fields : list (string * json)).

Definition own_property (fields : list (string * json)) (key : string)
  : option json :=
  match find (fun f => String.eqb (fst f) key) fields with
  | Some f => Some (snd f)
  | None => None
  end.

(** [v.key], for the keys of [Bet] and [MarketData] (none of which is
    found on a prototype). *)
Definition get_prop (v : option json) (key : string) : Completion (option json) :=
  match v with
  | None => Throw TypeError
  | Some JNull => Throw TypeError
  | Some (JObj fields) => Normal (own_property fields key)
  | Some _ => Normal None
  end.

Fixpoint assign (fields : list (string * json)) (key : string) (v : json)
  : list (string * json) :=
  match fields with
  | [] => [(key, v)]
  | (k0, x) :: rest =>
      if String.eqb k0 key then (k0, v) :: rest
      else (k0, x) :: assign rest key v
  end.

(** [target.key = v] in strict mode, for a target that is an object or a
    primitive.  The only target of an assignment is the market, which is
    an object whenever [drawMe] runs (an array, which JavaScript would
    extend with the property, does not occur there). *)
Definition set_prop (target : json) (key : string) (v : json) : Completion json :=
  match target with
  | JObj fields => Normal (JObj (assign fields key v))
  | _ => Throw TypeError
  end.

(** [!v] is [negb (truthy v)]. *)
Definition truthy (v : json) : bool :=
  match v with
  | JNull => false
  | JBool b => b
  | JNum x => negb (num_eqb x (num_of_Z 0) || isNaN x)
  | JStr s => negb (String.eqb s EmptyString)
  | JArr _ => true
  | JObj _ => true
  end.

(** The interface [Bet], as a shape of documents. *)
Definition is_Direction (v : option json) : bool :=
  match v with
  | Some (JStr s) => String.eqb s "YES" || String.eqb s "NO"
  | _ => false
  end.

Definition is_number (v : option json) : bool :=
  match v with Some (JNum _) => true | _ => false end.

Definition is_string (v : option json) : bool :=
  match v with Some (JStr _) => true | _ => false end.

Definition is_optional_string (v : option json) : bool :=
  match v with None => true | Some (JStr _) => true | _ => false end.

Definition is_Size (v : option json) : bool :=
  match v with
  | Some (JObj fields) =>
      is_number (own_property fields "mana")
      && is_Direction (own_property fields "direction")
  | _ => false
  end.

Definition is_Bet (v : json) : bool :=
  match v with
  | JObj fields =>
      is_string (own_property fields "timestamp")
      && is_Size (own_property fields "size")
      && is_optional_string (own_property fields "comment")
      && is_number (own_property fields "sharesReceived")
      && is_number (own_property fields "log2oddsBefore")
      && is_number (own_property fields "log2oddsAfter")
  | _ => false
  end.

Definition is_pool (v : option json) : bool :=
  match v with
  | Some (JObj fields) =>
      is_number (own_property fields "yesShares")
      && is_number (own_property fields "noShares")
      && is_number (own_property fields "k")
  | _ => false
  end.

Definition is_resolution (v : option json) : bool :=
  match v with
  | None => true
  | Some (JObj fields) => is_Direction (own_property fields "outcome")
  | _ => false
  end.

(** The interface [MarketData]: what a document has to look like to be a
    market snapshot. *)
Definition is_MarketData (v : json) : bool :=
  match v with
  | JObj fields =>
      is_string (own_property fields "name")
      && match own_property fields "bets" with
         | Some (JArr items) => forallb is_Bet items
         | _ => false
         end
      && is_pool (own_property fields "pool")
      && is_number (own_property fields "log2odds")
      && is_number (own_property fields "userShares")
      && is_resolution (own_property fields "resolution")
  | _ => false
  end.

(** The market of the [catch] branch of [setViewData]. *)
Definition default_market : json :=
  JObj [("name", JStr "Prediction Market");
        ("bets", JArr []);
        ("pool", JObj [("yesShares", JNum (num_of_Z 512));
                       ("noShares", JNum (num_of_Z 512));
                       ("k", JNum (Math_log2 (num_of_Z 512)
                                   * Math_log2 (num_of_Z 512))%num)]);
        ("log2odds", JNum (num_of_Z 0));
        ("userShares", JNum (num_of_Z 0))].

(** The four arguments of [placeBet] as the declared parameter types read
    them; [None] when a value read from the document is of another type. *)
Definition typed_args (m d c ts : option json)
  : option (num * Direction * option string * option string) :=
  match m, d with
  | Some (JNum amount), Some (JStr s) =>
      let dir :=
        if String.eqb s "YES" then Some YES
        else if String.eqb s "NO" then Some NO else None in
      let cmt :=
        match c with
        | None => Some None
        | Some (JStr text) => Some (Some text)
        | Some _ => None
        end in
      let tsv :=
        match ts with
        | None => Some None
        | Some JNull => Some None
        | Some (JStr text) => Some (Some text)
        | Some _ => None
        end in
      match dir, cmt, tsv with
      | Some dir, Some cmt, Some tsv => Some (amount, dir, cmt, tsv)
      | _, _, _ => None
      end
  | _, _ => None
  end.

(** The callback of [this.market.bets.forEach] in [setViewData].  The
    ledger is [None] once a value of an undeclared type has been placed in
    it: the engine is not modelled on such values. *)
Definition place_from_document (now : string) (bet : json)
    (lg : option (MarketLogic num)) : Completion (option (MarketLogic num)) :=
  sz <- get_prop (Some bet) "size" ;;
  m <- get_prop sz "mana" ;;
  sz' <- get_prop (Some bet) "size" ;;
  d <- get_prop sz' "direction" ;;
  c <- get_prop (Some bet) "comment" ;;
  ts <- get_prop (Some bet) "timestamp" ;;
  Normal
    match lg, typed_args m d c ts with
    | Some l, Some (amount, dir, cmt, tsv) =>
        Some (snd (placeBet now amount dir cmt tsv l))
    | _, _ => None
    end.

(** [items.forEach((bet, lt) => ...)], from index [lt] on; [clock lt] is
    the time at the call for entry [lt]. *)
Fixpoint forEach_place (clock : nat -> string) (items : list json) (lt : nat)
    (lg : option (MarketLogic num)) : Completion (option (MarketLogic num)) :=
  match items with
  | [] => Normal lg
  | bet :: rest =>
      lg' <- place_from_document (clock lt) bet lg ;;
      forEach_place clock rest (S lt) lg'
  end.

Record PredictionView : Type := mkPredictionView {
  market : option json;
  logic : option (MarketLogic num)
}.

(** The [try] block of [setViewData]. *)
Definition setViewData_try (JSON_parse : string -> Completion json)
    (clock : nat -> string) (content : string) : Completion PredictionView :=
  m <- JSON_parse content ;;
  if negb (truthy m) then Throw (Error "parser fault")
  else
    b <- get_prop (Some m) "bets" ;;
    match b with
    | Some (JArr items) =>
        lg <- forEach_place clock items 0 (Some new_MarketLogic) ;;
        Normal {| market := Some m; logic := lg |}
    | _ => Throw TypeError          (* no [forEach] to call *)
    end.

(** [setViewData(content, clear)] up to its call of [drawMe]. *)
Definition setViewData (JSON_parse : string -> Completion json)
    (clock : nat -> string) (content : string) : PredictionView :=
  try_catch (setViewData_try JSON_parse clock content)
    {| market := Some default_market; logic := Some new_MarketLogic |}.

Definition json_of_Direction (d : Direction) : json :=
  match d with YES => JStr "YES" | NO => JStr "NO" end.

Definition json_of_Bet (b : Bet num) : json :=
  JObj ([("timestamp", JStr (timestamp b));
         ("size", JObj [("mana", JNum (mana (size b)));
                        ("direction", json_of_Direction (direction (size b)))])]
        ++ match comment b with Some text => [("comment", JStr text)] | None => [] end
        ++ [("sharesReceived", JNum (sharesReceived b));
            ("log2oddsBefore", JNum (log2oddsBefore b));
            ("log2oddsAfter", JNum (log2oddsAfter b))]).

(** The part of [drawMe] headed "Update market state"; what follows it in
    [drawMe] draws the view.  [None]: the ledger holds a value of an
    undeclared type. *)
Definition drawMe_update (this : PredictionView)
  : option (Completion PredictionView) :=
  match market this with
  | None => Some (Normal this)
  | Some m =>
      if negb (truthy m) then Some (Normal this)
      else
        match logic this with
        | None => None
        | Some lg =>
            let '(r, lg) := replay lg in
            Some (
              m1 <- set_prop m "bets" (JArr (map json_of_Bet (res_bets r))) ;;
              let st := computeState lg in
              m2 <- set_prop m1 "log2odds" (JNum (log2odds st)) ;;
              let userShares :=
                if num_gtb (yesShares r) (noShares r) then yesShares r
                else num_neg (noShares r) in
              m3 <- set_prop m2 "userShares" (JNum userShares) ;;
              p <- get_prop (Some m3) "pool" ;;
              kv <- get_prop p "k" ;;
              let newPool :=
                JObj ([("yesShares", JNum (fst (getPool lg)));
                       ("noShares", JNum (snd (getPool lg)))]
                      ++ match kv with Some x => [("k", x)] | None => [] end) in
              m4 <- set_prop m3 "pool" newPool ;;
              Normal {| market := Some m4; logic := Some lg |})
        end
  end.

(** The listener of the "Place Bet" button, on the ledger: [amount] is
    [parseFloat(amountInput.value)], [text] is [commentInput.value]; the
    [drawMe] that ends it replays the ledger. *)
Definition betButton_click (now : string) (amount : num) (dir : Direction)
    (text : string) (lg : MarketLogic num) : MarketLogic num :=
  let cmt := if String.eqb text EmptyString then None else Some text in
  if isNaN amount || num_leb amount (num_of_Z 0) then lg
  else
    let '(_, lg) := placeBet now amount dir cmt None lg in
    snd (replay lg).

(** The listener of the "Save" button of the edit form, on the ledger. *)
Definition saveButton_click (index : nat) (amount : num) (dir : Direction)
    (text : string) (lg : MarketLogic num) : Completion unit * MarketLogic num :=
  let cmt := if String.eqb text EmptyString then None else Some text in
  if isNaN amount || num_leb amount (num_of_Z 0) then (Normal tt, lg)
  else
    match updateBet index amount dir cmt lg with
    | (Normal _, lg) => (Normal tt, snd (replay lg))
    | (Throw e, lg) => (Throw e, lg)
    end.
End View.

Arguments json : clear implicits.
Arguments PredictionView : clear implicits.

(** ** Exact real arithmetic

    Not the numbers of the program, which are the doubles of
    [Double_number] below: the real numbers give the value that a formula
    of the engine has before any rounding.  No operation rounds,
    overflows or yields NaN here, and [Math.log2] and [Math.pow] are the
    mathematical functions.  A statement proved at this instance is a
    statement about the formulas, in exact arithmetic, and is worded so;
    what the program computes on doubles can differ from it by the
    rounding errors, by overflow and by NaN. *)
Definition Rgtb (x y : R) : bool := if Rgt_dec x y then true else false.
Definition Rleb (x y : R) : bool := if Rle_dec x y then true else false.
Definition Reqb (x y : R) : bool := if Req_dec_T x y then true else false.

Definition log2 (x : R) : R := (ln x / ln 2)%R.

#[export] Instance R_number : JSNumber R := {|
  num_of_Z := IZR;
  num_add := Rplus;
  num_sub := Rminus;
  num_mul := Rmult;
  num_div := Rdiv;
  num_neg := Ropp;
  num_gtb := Rgtb;
  num_leb := Rleb;
  num_eqb := Reqb;
  isNaN := fun _ => false;
  Math_log2 := log2;
  Math_pow := Rpower;
  Math_abs := Rabs;
  Math_min := Rmin
|}.

(** ** IEEE-754 binary64 as [number]

    The numbers of the program.  Sums, differences, products, quotients,
    comparisons and [Math.abs] are the primitive binary64 operations.
    [Math.log2] and [Math.pow] follow ECMA-262 where it prescribes a
    result (NaN, zeros, infinities, [log2(1)], a zero exponent, negative
    bases); elsewhere ECMA-262 asks for an approximation of the
    mathematical function and leaves its last bit to the host: here the
    function is computed in fixed point with [P] fractional bits and
    rounded once, to nearest even, which gives the nearest double. *)
Module Double.
Local Open Scope Z_scope.

Definition of_spec (x : SpecFloat.spec_float) : PrimFloat.float :=
  FloatOps.SF2Prim x.

Definition to_spec (x : PrimFloat.float) : SpecFloat.spec_float :=
  FloatOps.Prim2SF x.

(** The double nearest to [m * 2^e]. *)
Definition round (m e : Z) : PrimFloat.float :=
  of_spec (SpecFloat.binary_normalize FloatOps.prec FloatOps.emax m e false).

(** A decimal or integer literal whose value is the integer [z]. *)
Definition of_Z (z : Z) : PrimFloat.float := round z 0.

Definition P : Z := 160.
Definition unit : Z := 2 ^ P.
Definition terms : nat := 64.

(** [sum (t^(2i+1) / (2i+1))], with [pw] running through the odd powers
    of [t] and [t2] the square of [t], all scaled by [2^P]. *)
Fixpoint atanh_series (fuel : nat) (i : Z) (t2 pw acc : Z) : Z :=
  match fuel with
  | O => acc
  | S fuel' =>
      atanh_series fuel' (i + 1) t2 (pw * t2 / unit) (acc + pw / (2 * i + 1))
  end.

(** [ln (a / b)] for [0 < b <= a <= 2 b], scaled by [2^P]:
    [2 * atanh ((a - b) / (a + b))]. *)
Definition ln_ratio (a b : Z) : Z :=
  let t := (a - b) * unit / (a + b) in
  2 * atanh_series terms 0 (t * t / unit) t 0.

Definition ln2 : Z := Eval vm_compute in ln_ratio 2 1.

(** [log2 (m * 2^e)], scaled by [2^P]: the exponent of the leading bit
    plus the logarithm of the mantissa in [1, 2). *)
Definition log2_fix (m : positive) (e : Z) : Z :=
  let d := Z.pos (SpecFloat.digits2_pos m) in
  (e + d - 1) * unit + ln_ratio (Z.pos m) (2 ^ (d - 1)) * unit / ln2.

(** [Math.log2(x)] *)
Definition log2 (x : PrimFloat.float) : PrimFloat.float :=
  match to_spec x with
  | SpecFloat.S754_nan => PrimFloat.nan
  | SpecFloat.S754_zero _ => PrimFloat.neg_infinity
  | SpecFloat.S754_infinity false => PrimFloat.infinity
  | SpecFloat.S754_infinity true => PrimFloat.nan
  | SpecFloat.S754_finite true _ _ => PrimFloat.nan
  | SpecFloat.S754_finite false m e => round (log2_fix m e) (- P)
  end.

(** [sum (z^i / i!)], scaled by [2^P]. *)
Fixpoint exp_series (fuel : nat) (i : Z) (z term acc : Z) : Z :=
  match fuel with
  | O => acc
  | S fuel' =>
      exp_series fuel' (i + 1) z (term * z / unit / (i + 1)) (acc + term)
  end.

(** [2 ^ (q / 2^P)]: the integer part of the exponent shifts, the
    fractional part goes through the exponential. *)
Definition pow2_fix (q : Z) : PrimFloat.float :=
  let n := q / unit in
  let f := q mod unit in
  if 1100 <? n then PrimFloat.infinity
  else if n <? -1200 then PrimFloat.zero
  else round (exp_series terms 0 (f * ln2 / unit) unit 0) (n - P).

(** [(+-m * 2^e) * (l / 2^P)], scaled by [2^P]. *)
Definition scale (s : bool) (m : positive) (e : Z) (l : Z) : Z :=
  let v := (if s then Z.neg m else Z.pos m) * l in
  if 0 <=? e then v * 2 ^ e else v / 2 ^ (- e).

Definition is_integer (m : positive) (e : Z) : bool :=
  (0 <=? e) || (Z.pos m mod 2 ^ (- e) =? 0).

Definition is_odd_integer (m : positive) (e : Z) : bool :=
  if 0 <? e then false
  else (Z.pos m mod 2 ^ (- e) =? 0) && Z.odd (Z.pos m / 2 ^ (- e)).

Definition sign_of (x : SpecFloat.spec_float) : bool :=
  match x with
  | SpecFloat.S754_zero s => s
  | SpecFloat.S754_infinity s => s
  | SpecFloat.S754_finite s _ _ => s
  | SpecFloat.S754_nan => false
  end.

Definition odd_integer_of (x : SpecFloat.spec_float) : bool :=
  match x with
  | SpecFloat.S754_finite _ m e => is_odd_integer m e
  | _ => false
  end.

(** [Math.pow(base, exponent)], the cases in the order of
    [Number::exponentiate]. *)
Definition pow (base exponent : PrimFloat.float) : PrimFloat.float :=
  let b := to_spec base in
  let x := to_spec exponent in
  let signed (r : PrimFloat.float) :=
    if sign_of b && odd_integer_of x then PrimFloat.opp r else r in
  match x with
  | SpecFloat.S754_nan => PrimFloat.nan
  | SpecFloat.S754_zero _ => PrimFloat.one
  | _ =>
      match b with
      | SpecFloat.S754_nan => PrimFloat.nan
      | SpecFloat.S754_infinity _ =>
          signed (if sign_of x then PrimFloat.zero else PrimFloat.infinity)
      | SpecFloat.S754_zero _ =>
          signed (if sign_of x then PrimFloat.infinity else PrimFloat.zero)
      | SpecFloat.S754_finite sb mb eb =>
          match x with
          | SpecFloat.S754_infinity sx =>
              let l := log2_fix mb eb in
              if l =? 0 then PrimFloat.nan
              else if Bool.eqb (0 <? l) sx then PrimFloat.zero
              else PrimFloat.infinity
          | SpecFloat.S754_finite sx mx ex =>
              if sb && negb (is_integer mx ex) then PrimFloat.nan
              else signed (pow2_fix (scale sx mx ex (log2_fix mb eb)))
          | _ => PrimFloat.nan
          end
      end
  end.

(** [Math.min(a, b)]: NaN if one is NaN, and -0 below +0. *)
Definition min (a b : PrimFloat.float) : PrimFloat.float :=
  if PrimFloat.is_nan a || PrimFloat.is_nan b then PrimFloat.nan
  else if PrimFloat.ltb a b then a
  else if PrimFloat.ltb b a then b
  else if PrimFloat.get_sign a then a else b.

(** A zero or a finite number; a number that is not NaN and not below
    zero. *)
Definition plain (x : SpecFloat.spec_float) : bool :=
  match x with
  | SpecFloat.S754_zero _ => true
  | SpecFloat.S754_finite _ _ _ => true
  | _ => false
  end.

Definition not_below_zero (x : SpecFloat.spec_float) : bool :=
  match x with
  | SpecFloat.S754_zero _ => true
  | SpecFloat.S754_infinity s => negb s
  | SpecFloat.S754_finite s _ _ => negb s
  | SpecFloat.S754_nan => false
  end.

(** The decimal literal [c e-d]: the double nearest to [c / 10^d]. *)
Definition decimal (c : Z) (d : Z) : PrimFloat.float :=
  PrimFloat.div (of_Z c) (of_Z (10 ^ d)).
End Double.

#[export] Instance Double_number : JSNumber PrimFloat.float := {|
  num_of_Z := Double.of_Z;
  num_add := PrimFloat.add;
  num_sub := PrimFloat.sub;
  num_mul := PrimFloat.mul;
  num_div := PrimFloat.div;
  num_neg := PrimFloat.opp;
  num_gtb := fun a b => PrimFloat.ltb b a;
  num_leb := PrimFloat.leb;
  num_eqb := PrimFloat.eqb;
  isNaN := PrimFloat.is_nan;
  Math_log2 := Double.log2;
  Math_pow := Double.pow;
  Math_abs := PrimFloat.abs;
  Math_min := Double.min
|}.

(** ** Reachable states of a [MarketLogic] *)
Section Reachability.
Context {num : Type} {JSNum : JSNumber num}.

(** The ids of the ledger are [0, 1, ..., size - 1], in this order. *)
Definition contiguous (this : MarketLogic num) : Prop :=
  JSMap.keys (bets this) = seq 0 (JSMap.size (bets this)).

(** The states an object goes through: after the constructor, after a
    public method, and inside [replay] after the reset of the pool and
    after each trade, which [replay] runs with [Math.abs] of an amount. *)
Inductive reachable : MarketLogic num -> Prop :=
| reach_new : reachable new_MarketLogic
| reach_placeBet : forall this now amount dir cmt ts,
    reachable this ->
    reachable (snd (placeBet now amount dir cmt ts this))
| reach_updateBet : forall this lt amount dir cmt,
    reachable this ->
    reachable (snd (updateBet lt amount dir cmt this))
| reach_reset : forall this,
    reachable this ->
    reachable (set_pool this (num_of_Z 512, num_of_Z 512))
| reach_poolBet : forall this amount flip,
    reachable this ->
    reachable (snd (poolBet (Math_abs amount) flip this)).

(** What [replay] leaves untouched in a trade: everything but the three
    derived fields. *)
Definition stored_part (b : Bet num) : string * Size num * option string :=
  (timestamp b, size b, comment b).
End Reachability.


(** A document that parses, has a (here empty) list of bets, and none of
    the other fields of a market snapshot. *)
Definition bets_only_document {num : Type} : json num :=
  JObj [("bets"%string, JArr [])].

(** A list of annotated trades is a chain of odds from [start] to
    [finish]: each trade starts at the odds the one before it ended at. *)
Fixpoint odds_chain {num : Type} (start : num) (l : list (Bet num))
    (finish : num) : Prop :=
  match l with
  | [] => start = finish
  | b :: rest =>
      log2oddsBefore b = start /\ odds_chain (log2oddsAfter b) rest finish
  end.

(** A trade as [placeBet] creates it: the three derived fields are 0. *)
Definition unannotated {num : Type} {JSNum : JSNumber num} (b : Bet num)
  : Prop :=
  sharesReceived b = num_of_Z 0
  /\ log2oddsBefore b = num_of_Z 0
  /\ log2oddsAfter b = num_of_Z 0.

(** A trade with its amount replaced by the absolute value, and the
    ledger of these trades. *)
Definition abs_amount (b : Bet R) : Bet R :=
  {| timestamp := timestamp b;
     size := {| mana := Rabs (mana (size b)); direction := direction (size b) |};
     comment := comment b;
     sharesReceived := sharesReceived b;
     log2oddsBefore := log2oddsBefore b;
     log2oddsAfter := log2oddsAfter b |}.

Definition abs_entry (e : nat * Bet R) : nat * Bet R := (fst e, abs_amount (snd e)).

Definition abs_ledger (this : MarketLogic R) : MarketLogic R :=
  set_bets this (map abs_entry (bets this)).

(** What a trade does to the market: its direction and the three fields
    that [replay] derives. *)
Definition trading_part (b : Bet R) : Direction * R * R * R :=
  (direction (size b), sharesReceived b, log2oddsBefore b, log2oddsAfter b).

(** Two runs of the loop of [replay] that traded alike so far. *)
Definition traded_alike (st st' : ReplayLocals R * MarketLogic R) : Prop :=
  pool (snd st) = pool (snd st')
  /\ k (snd st) = k (snd st')
  /\ sy (fst st) = sy (fst st')
  /\ sn (fst st) = sn (fst st')
  /\ map trading_part (updatedBets (fst st))
     = map trading_part (updatedBets (fst st')).

(** The totals that the loop of [replay] accumulates, read off a list of
    annotated trades: the shares of the trades of one direction, and the
    mana with its sign, both summed from left to right from 0 as the
    loop does. *)
Definition shares_total {num : Type} {JSNum : JSNumber num} (d : Direction)
    (l : list (Bet num)) : num :=
  fold_left
    (fun acc b =>
       if Direction_eqb (direction (size b)) d
       then (acc + sharesReceived b)%num else acc)
    l (num_of_Z 0).

Definition mana_total {num : Type} {JSNum : JSNumber num} (l : list (Bet num))
  : num :=
  fold_left
    (fun acc b =>
       if Direction_eqb (direction (size b)) NO
       then (acc + mana (size b))%num else (acc - mana (size b))%num)
    l (num_of_Z 0).

(** The locals of the loop are the totals of the trades annotated so
    far. *)
Definition locals_are_totals {num : Type} {JSNum : JSNumber num}
    (loc : ReplayLocals num) : Prop :=
  sy loc = shares_total YES (updatedBets loc)
  /\ sn loc = shares_total NO (updatedBets loc)
  /\ acc_mana loc = mana_total (updatedBets loc).

(** What the netting at the end of [replay] needs of the arithmetic, on
    values that are neither NaN nor infinite.  These are facts of
    IEEE-754 arithmetic ([Double_finite_laws]) and of exact arithmetic
    ([R_finite_laws]). *)
Class FiniteLaws (num : Type) {JSNum : JSNumber num} : Type := {
  finite : num -> Prop;
  (* [Math.min] returns one of its operands, one that is [<=] the other *)
  min_smaller : forall x y, finite x -> finite y ->
    (Math_min x y = x /\ num_leb x y = true)
    \/ (Math_min x y = y /\ num_leb y x = true);
  (* [x - x] is a zero *)
  sub_self : forall x, finite x ->
    num_eqb (x - x)%num (num_of_Z 0) = true;
  (* [y - x] is not below zero when [x <= y] *)
  sub_nonneg : forall x y, finite x -> finite y -> num_leb x y = true ->
    num_leb (num_of_Z 0) (y - x)%num = true;
  (* the minimum of a zero and a number not below zero is a zero *)
  min_zero_l : forall z w,
    num_eqb z (num_of_Z 0) = true -> num_leb (num_of_Z 0) w = true ->
    num_eqb (Math_min z w) (num_of_Z 0) = true;
  min_zero_r : forall z w,
    num_eqb z (num_of_Z 0) = true -> num_leb (num_of_Z 0) w = true ->
    num_eqb (Math_min w z) (num_of_Z 0) = true
}.

(** The ledger, on doubles, with the trade 10 YES, after its replay. *)
Definition double_ledger_10_YES : MarketLogic PrimFloat.float :=
  snd (replay
         (snd (placeBet "2025-01-01T00:00:00.000Z" (Double.of_Z 10) YES
                 None None new_MarketLogic))).

(** The ledger, on doubles, with the trades 1.7e308 YES, 1.7e308 YES and
    1.7e308 NO. *)
Definition double_ledger_overflow : MarketLogic PrimFloat.float :=
  let big := Double.of_Z (17 * 10 ^ 307) in
  let place amount dir this :=
    snd (placeBet "2025-01-01T00:00:00.000Z" amount dir None None this) in
  place big NO (place big YES (place big YES new_MarketLogic)).


(** An entry of [bets] on which the reads [bet.size.mana] and
    [bet.size.direction] do not throw: an object whose [size] is neither
    [undefined] nor [null]. *)
Definition bet_readable {num : Type} (bet : json num) : bool :=
  match bet with
  | JObj fields =>
      match own_property fields "size" with
      | None => false
      | Some JNull => false
      | Some _ => true
      end
  | _ => false
  end.

(** * Properties *)

(** ** The map *)
Section MapFacts.
Variable V : Type.
Implicit Types (m : JSMap.t V) (l : list (nat * V)).

Lemma JSMap_has_get m key :
  JSMap.has m key = false <-> JSMap.get m key = None.
Proof.
  unfold JSMap.has. destruct (JSMap.get m key); split; congruence.
Qed.

Lemma JSMap_get_set_same m key v :
  JSMap.get (JSMap.set m key v) key = Some v.
Proof.
  induction m as [|[k0 x] rest IH]; simpl.
  - now rewrite Nat.eqb_refl.
  - destruct (Nat.eqb k0 key) eqn:E; simpl; rewrite E; auto.
Qed.

Lemma JSMap_get_set_other m key v key' :
  key' <> key ->
  JSMap.get (JSMap.set m key v) key' = JSMap.get m key'.
Proof.
  intros Hne. induction m as [|[k0 x] rest IH]; simpl.
  - destruct (Nat.eqb key key') eqn:E; auto.
    apply Nat.eqb_eq in E. congruence.
  - destruct (Nat.eqb k0 key) eqn:E; simpl.
    + apply Nat.eqb_eq in E. subst k0.
      destruct (Nat.eqb key key') eqn:E'; auto.
      apply Nat.eqb_eq in E'. congruence.
    + now rewrite IH.
Qed.

Lemma JSMap_get_In_keys m key :
  JSMap.get m key <> None <-> In key (JSMap.keys m).
Proof.
  induction m as [|[k0 x] rest IH]; simpl.
  - split; [congruence | tauto].
  - destruct (Nat.eqb k0 key) eqn:E.
    + apply Nat.eqb_eq in E. split; [auto | congruence].
    + apply Nat.eqb_neq in E. rewrite IH. split; [auto | intros [?|?]; tauto].
Qed.

(** [set] on a key that is present keeps every key where it is. *)
Lemma JSMap_keys_set_present m key v :
  JSMap.get m key <> None ->
  JSMap.keys (JSMap.set m key v) = JSMap.keys m.
Proof.
  induction m as [|[k0 x] rest IH]; simpl; [congruence|].
  destruct (Nat.eqb k0 key) eqn:E; simpl; auto.
  intros Hget. f_equal. now apply IH.
Qed.

(** [set] on a key that is absent appends. *)
Lemma JSMap_set_absent m key v :
  JSMap.get m key = None ->
  JSMap.set m key v = m ++ [(key, v)].
Proof.
  induction m as [|[k0 x] rest IH]; simpl; auto.
  destruct (Nat.eqb k0 key) eqn:E; [congruence|].
  intros Hget. f_equal. now apply IH.
Qed.

Lemma JSMap_size_set_present m key v :
  JSMap.get m key <> None ->
  JSMap.size (JSMap.set m key v) = JSMap.size m.
Proof.
  intros Hget. unfold JSMap.size.
  rewrite <- (length_map fst (JSMap.set m key v)), <- (length_map fst m).
  change (List.length (JSMap.keys (JSMap.set m key v)) = List.length (JSMap.keys m)).
  now rewrite JSMap_keys_set_present.
Qed.

(** With contiguous ids the next id is free. *)
Lemma JSMap_contiguous_fresh m :
  JSMap.keys m = seq 0 (JSMap.size m) ->
  JSMap.get m (JSMap.size m) = None.
Proof.
  intros Hk.
  destruct (JSMap.get m (JSMap.size m)) eqn:E; auto.
  assert (Hin : In (JSMap.size m) (JSMap.keys m)).
  { apply JSMap_get_In_keys. congruence. }
  rewrite Hk in Hin. apply in_seq in Hin. lia.
Qed.

Lemma JSMap_insert_sorted e l :
  Forall ((@JSMap.key_le V) e) l -> JSMap.insert_by_key e l = e :: l.
Proof.
  destruct l as [|x rest]; simpl; auto.
  intros Hall. inversion Hall as [|? ? Hx _]; subst.
  unfold JSMap.key_le in Hx. apply Nat.leb_le in Hx. now rewrite Hx.
Qed.

(** Sorting entries that already ascend by key changes nothing. *)
Lemma JSMap_sort_sorted l :
  StronglySorted (@JSMap.key_le V) l -> JSMap.sort_by_key l = l.
Proof.
  induction 1 as [|e l Hs IH Hall]; simpl; auto.
  rewrite IH. now apply JSMap_insert_sorted.
Qed.

Lemma JSMap_insert_perm e l : Permutation (e :: l) (JSMap.insert_by_key e l).
Proof.
  induction l as [|x rest IH]; simpl; auto.
  destruct (Nat.leb (fst e) (fst x)); auto.
  rewrite perm_swap. now constructor.
Qed.

Lemma JSMap_sort_perm l : Permutation l (JSMap.sort_by_key l).
Proof.
  induction l as [|e l IH]; simpl; auto.
  rewrite <- JSMap_insert_perm. now constructor.
Qed.

Lemma JSMap_insert_ascending e l :
  StronglySorted (@JSMap.key_le V) l -> StronglySorted (@JSMap.key_le V) (JSMap.insert_by_key e l).
Proof.
  induction 1 as [|x l Hs IH Hall]; simpl.
  - repeat constructor.
  - destruct (Nat.leb (fst e) (fst x)) eqn:E.
    + apply Nat.leb_le in E. constructor; [now constructor|].
      constructor; [exact E|].
      eapply Forall_impl; [|exact Hall].
      unfold JSMap.key_le. intros; lia.
    + apply Nat.leb_gt in E. constructor; [exact IH|].
      rewrite <- JSMap_insert_perm. constructor; [|exact Hall].
      unfold JSMap.key_le. lia.
Qed.

(** The sort yields the entries in ascending order of key. *)
Lemma JSMap_sort_ascending l : StronglySorted (@JSMap.key_le V) (JSMap.sort_by_key l).
Proof.
  induction l as [|e l IH]; simpl; [constructor|].
  now apply JSMap_insert_ascending.
Qed.

Lemma JSMap_ascending_of_keys l :
  StronglySorted le (map fst l) -> StronglySorted (@JSMap.key_le V) l.
Proof.
  induction l as [|e l IH]; simpl; intros Hs; [constructor|].
  inversion Hs as [|? ? Hs' Hall]; subst.
  constructor; [now apply IH|].
  rewrite Forall_map in Hall. exact Hall.
Qed.

Lemma seq_ascending len start : StronglySorted le (seq start len).
Proof.
  revert start. induction len as [|len IH]; intros start; simpl; constructor.
  - apply IH.
  - apply Forall_forall. intros x Hx. apply in_seq in Hx. lia.
Qed.

(** With contiguous ids, ascending order of id is insertion order. *)
Lemma JSMap_sort_contiguous m :
  JSMap.keys m = seq 0 (JSMap.size m) ->
  JSMap.sort_by_key (JSMap.entries m) = JSMap.entries m.
Proof.
  intros Hk. apply JSMap_sort_sorted, JSMap_ascending_of_keys.
  unfold JSMap.entries. change (map fst m) with (JSMap.keys m).
  rewrite Hk. apply seq_ascending.
Qed.
End MapFacts.

(** ** The engine, for any arithmetic *)
Section EngineFacts.
Context {num : Type} {JSNum : JSNumber num}.
Implicit Types (this : MarketLogic num) (bet : Bet num).
Local Open Scope num_scope.

Lemma set_pool_set_pool this p q : set_pool (set_pool this p) q = set_pool this q.
Proof. reflexivity. Qed.

Lemma set_pool_pool this : set_pool this (pool this) = this.
Proof. now destruct this. Qed.

(** A trade writes the pool and nothing else. *)
Lemma poolBet_frame amount flip this :
  snd (poolBet amount flip this)
  = set_pool this (pool (snd (poolBet amount flip this))).
Proof.
  unfold poolBet. destruct (pool this) as [y n].
  destruct flip; reflexivity.
Qed.

Lemma poolBet_set_pool amount flip this p :
  poolBet amount flip (set_pool this p)
  = (fst (poolBet amount flip (set_pool this p)),
     set_pool this (pool (snd (poolBet amount flip (set_pool this p))))).
Proof.
  unfold poolBet. simpl. destruct p as [y n].
  destruct flip; reflexivity.
Qed.

Lemma replay_body_frame entry loc this :
  snd (replay_body entry (loc, this))
  = set_pool this (pool (snd (replay_body entry (loc, this)))).
Proof.
  unfold replay_body. cbv zeta.
  assert (F := poolBet_frame (Math_abs (mana (size (snd entry))))
                 (Direction_eqb (direction (size (snd entry))) NO) this).
  destruct (poolBet _ _ this) as [shares this'].
  simpl in F. destruct (Direction_eqb _ _); exact F.
Qed.

Lemma replay_loop_cons e entries (st : ReplayLocals num * MarketLogic num) :
  replay_loop (e :: entries) st = replay_loop entries (replay_body e st).
Proof. reflexivity. Qed.

Lemma replay_loop_frame entries loc this :
  snd (replay_loop entries (loc, this))
  = set_pool this (pool (snd (replay_loop entries (loc, this)))).
Proof.
  revert loc this.
  induction entries as [|e entries IH]; intros loc this.
  - simpl. now rewrite set_pool_pool.
  - rewrite replay_loop_cons.
    assert (F := replay_body_frame e loc this).
    destruct (replay_body e (loc, this)) as [loc' this'].
    simpl in F. rewrite (IH loc' this').
    rewrite F at 1. now rewrite set_pool_set_pool.
Qed.

(** [replay] writes the pool and nothing else. *)
Lemma replay_frame this :
  snd (replay this) = set_pool this (pool (snd (replay this))).
Proof.
  unfold replay.
  match goal with
  | |- context [replay_loop ?es (?l, ?s)] =>
      assert (F := replay_loop_frame es l s);
      destruct (replay_loop es (l, s)) as [loc this']
  end.
  simpl in *. rewrite F at 1. now rewrite set_pool_set_pool.
Qed.

(** [replay] does not read the pool it starts from. *)
Lemma replay_set_pool this p : replay (set_pool this p) = replay this.
Proof. reflexivity. Qed.

(** C1. A BUY_YES trade of [a] on the pool [(y, n)] with constant [k]
    leaves the pool [(2^(k / log2(n + a)), n + a)] and issues
    [(y + a) - 2^(k / log2(n + a))] shares; a BUY_NO trade leaves
    [(y + a, 2^(k / log2(y + a)))] and issues
    [(n + a) - 2^(k / log2(y + a))] shares.  This holds for every pool,
    constant and amount, in particular for positive ones. *)
Theorem poolBet_formula (y n k0 a : num) (ledger : JSMap.t (Bet num)) :
  let this := {| pool := (y, n); k := k0; bets := ledger |} in
  let two := num_of_Z 2 in
  (let y'' := Math_pow two (k0 / Math_log2 (n + a)) in
   let n'' := n + a in
   poolBet a false this
   = ((y + a) - y'', {| pool := (y'', n''); k := k0; bets := ledger |}))
  /\
  (let y'' := y + a in
   let n'' := Math_pow two (k0 / Math_log2 (y + a)) in
   poolBet a true this
   = ((n + a) - n'', {| pool := (y'', n''); k := k0; bets := ledger |})).
Proof. split; reflexivity. Qed.

(** C3. On the pool [(y, n)] the odds derivation returns
    [probability = (n * log2 n) / (n * log2 n + y * log2 y)], the NO side
    in the numerator, and [log2odds = log2(probability / (1 - probability))]. *)
Theorem computeState_formula (y n k0 : num) (ledger : JSMap.t (Bet num)) :
  let this := {| pool := (y, n); k := k0; bets := ledger |} in
  let p := (n * Math_log2 n) / (n * Math_log2 n + y * Math_log2 y) in
  probability (computeState this) = p
  /\ log2odds (computeState this) = Math_log2 (p / (num_of_Z 1 - p)).
Proof. split; reflexivity. Qed.

(** C4. Calling [replay] twice in a row returns the same [ReplayResult]
    both times, field for field, and leaves the object in the same
    state. *)
Theorem replay_idempotent this :
  let '(r1, this1) := replay this in
  let '(r2, this2) := replay this1 in
  yesShares r2 = yesShares r1
  /\ noShares r2 = noShares r1
  /\ res_mana r2 = res_mana r1
  /\ res_bets r2 = res_bets r1
  /\ r2 = r1
  /\ this2 = this1.
Proof.
  destruct (replay this) as [r1 this1] eqn:E1.
  assert (F := replay_frame this). rewrite E1 in F. simpl in F.
  rewrite F, replay_set_pool, E1.
  rewrite <- F. repeat split; reflexivity.
Qed.

Lemma updateBet_absent this lt amount dir cmt :
  JSMap.get (bets this) lt = None ->
  updateBet lt amount dir cmt this = (Throw (Error "Bet not found"), this).
Proof.
  intros Hget. unfold updateBet.
  apply JSMap_has_get in Hget. now rewrite Hget.
Qed.

Lemma updateBet_present this lt amount dir cmt bet :
  JSMap.get (bets this) lt = Some bet ->
  updateBet lt amount dir cmt this
  = (Normal {| timestamp := timestamp bet;
               size := {| mana := amount; direction := dir |};
               comment := cmt;
               sharesReceived := sharesReceived bet;
               log2oddsBefore := log2oddsBefore bet;
               log2oddsAfter := log2oddsAfter bet |},
     set_bets this
       (JSMap.set (bets this) lt
          {| timestamp := timestamp bet;
             size := {| mana := amount; direction := dir |};
             comment := cmt;
             sharesReceived := sharesReceived bet;
             log2oddsBefore := log2oddsBefore bet;
             log2oddsAfter := log2oddsAfter bet |})).
Proof.
  intros Hget. unfold updateBet, JSMap.has. now rewrite Hget.
Qed.

(** An amendment, failed or not, moves no id. *)
Lemma updateBet_keys this lt amount dir cmt :
  JSMap.keys (bets (snd (updateBet lt amount dir cmt this)))
  = JSMap.keys (bets this).
Proof.
  destruct (JSMap.get (bets this) lt) as [bet|] eqn:Hget.
  - rewrite (updateBet_present _ _ _ _ _ Hget). simpl.
    apply JSMap_keys_set_present. congruence.
  - now rewrite (updateBet_absent _ _ _ _ _ Hget).
Qed.

(** An amendment leaves the trades under the other ids alone. *)
Lemma updateBet_others this lt amount dir cmt lt' :
  lt' <> lt ->
  JSMap.get (bets (snd (updateBet lt amount dir cmt this))) lt'
  = JSMap.get (bets this) lt'.
Proof.
  intros Hne.
  destruct (JSMap.get (bets this) lt) as [bet|] eqn:Hget.
  - rewrite (updateBet_present _ _ _ _ _ Hget). simpl.
    now apply JSMap_get_set_other.
  - now rewrite (updateBet_absent _ _ _ _ _ Hget).
Qed.

(** C7. [updateBet] on an id that is absent throws [Error('Bet not found')]
    and leaves the object as it was, so that a following [replay] returns
    what it returned before; on an id that is present it stores the new
    amount, direction and comment in that trade and returns the updated
    record, which is the one now stored under the id. *)
Theorem updateBet_spec this lt amount dir cmt :
  match JSMap.get (bets this) lt with
  | None =>
      fst (updateBet lt amount dir cmt this) = Throw (Error "Bet not found")
      /\ snd (updateBet lt amount dir cmt this) = this
      /\ replay (snd (updateBet lt amount dir cmt this)) = replay this
  | Some bet =>
      exists bet',
        fst (updateBet lt amount dir cmt this) = Normal bet'
        /\ mana (size bet') = amount
        /\ direction (size bet') = dir
        /\ comment bet' = cmt
        /\ JSMap.get (bets (snd (updateBet lt amount dir cmt this))) lt
           = Some bet'
        /\ JSMap.keys (bets (snd (updateBet lt amount dir cmt this)))
           = JSMap.keys (bets this)
        /\ (forall lt', lt' <> lt ->
              JSMap.get (bets (snd (updateBet lt amount dir cmt this))) lt'
              = JSMap.get (bets this) lt')
  end.
Proof.
  destruct (JSMap.get (bets this) lt) as [bet|] eqn:Hget.
  - eexists. rewrite (updateBet_present _ _ _ _ _ Hget). simpl.
    repeat split.
    + apply JSMap_get_set_same.
    + apply JSMap_keys_set_present. congruence.
    + intros lt' Hne. now apply JSMap_get_set_other.
  - rewrite (updateBet_absent _ _ _ _ _ Hget). auto.
Qed.

(** C10. [updateBet] on a trade that is present keeps its timestamp and
    its derived fields; the comment it stores is the argument, hence
    absent when the argument is omitted, whatever the comment was. *)
Theorem updateBet_fields this lt amount dir cmt bet :
  JSMap.get (bets this) lt = Some bet ->
  exists bet',
    JSMap.get (bets (snd (updateBet lt amount dir cmt this))) lt = Some bet'
    /\ timestamp bet' = timestamp bet
    /\ sharesReceived bet' = sharesReceived bet
    /\ log2oddsBefore bet' = log2oddsBefore bet
    /\ log2oddsAfter bet' = log2oddsAfter bet
    /\ mana (size bet') = amount
    /\ direction (size bet') = dir
    /\ comment bet' = cmt
    /\ (cmt = None -> comment bet' = None).
Proof.
  intros Hget. eexists.
  rewrite (updateBet_present _ _ _ _ _ Hget). simpl.
  split; [apply JSMap_get_set_same|]. repeat split. auto.
Qed.

(** A new trade on a ledger with contiguous ids goes to the end. *)
Lemma placeBet_appends this now amount dir cmt ts :
  contiguous this ->
  JSMap.entries (bets (snd (placeBet now amount dir cmt ts this)))
  = JSMap.entries (bets this)
    ++ [(JSMap.size (bets this), fst (placeBet now amount dir cmt ts this))].
Proof.
  intros Hc. unfold placeBet, JSMap.entries. simpl.
  apply JSMap_set_absent, JSMap_contiguous_fresh, Hc.
Qed.

Lemma placeBet_contiguous this now amount dir cmt ts :
  contiguous this -> contiguous (snd (placeBet now amount dir cmt ts this)).
Proof.
  intros Hc. unfold contiguous.
  assert (A := placeBet_appends now amount dir cmt ts Hc).
  unfold JSMap.entries in A. rewrite A.
  unfold JSMap.keys, JSMap.size. rewrite map_app, length_app. simpl.
  rewrite Nat.add_1_r, seq_S. simpl. f_equal. exact Hc.
Qed.

Lemma updateBet_contiguous this lt amount dir cmt :
  contiguous this -> contiguous (snd (updateBet lt amount dir cmt this)).
Proof.
  unfold contiguous. intros Hc.
  rewrite updateBet_keys.
  replace (JSMap.size (bets (snd (updateBet lt amount dir cmt this))))
    with (JSMap.size (bets this)); [exact Hc|].
  unfold JSMap.size.
  rewrite <- (length_map fst (bets this)).
  rewrite <- (length_map fst (bets (snd (updateBet lt amount dir cmt this)))).
  fold (JSMap.keys (bets this)).
  fold (JSMap.keys (bets (snd (updateBet lt amount dir cmt this)))).
  now rewrite updateBet_keys.
Qed.

(** Every reachable ledger has the ids [0 .. size - 1] in this order. *)
Lemma reachable_contiguous this : reachable this -> contiguous this.
Proof.
  induction 1 as [|this now amount dir cmt ts _ IH
                  |this lt amount dir cmt _ IH
                  |this _ IH
                  |this amount flip _ IH].
  - reflexivity.
  - now apply placeBet_contiguous.
  - now apply updateBet_contiguous.
  - exact IH.
  - rewrite poolBet_frame. exact IH.
Qed.

Lemma replay_loop_reachable entries loc this :
  reachable this -> reachable (snd (replay_loop entries (loc, this))).
Proof.
  revert loc this.
  induction entries as [|e entries IH]; intros loc this Hr; [exact Hr|].
  rewrite replay_loop_cons.
  assert (R1 : reachable (snd (replay_body e (loc, this)))).
  { unfold replay_body. cbv zeta.
    assert (R0 := reach_poolBet (mana (size (snd e)))
                    (Direction_eqb (direction (size (snd e))) NO) Hr).
    destruct (poolBet _ _ this) as [shares this'].
    destruct (Direction_eqb _ _); exact R0. }
  destruct (replay_body e (loc, this)) as [loc' this'].
  now apply IH.
Qed.

(** [replay] stays within the reachable states. *)
Lemma replay_reachable this : reachable this -> reachable (snd (replay this)).
Proof.
  intros Hr. unfold replay.
  match goal with
  | |- context [replay_loop ?es (?l, ?s)] =>
      assert (R1 : reachable (snd (replay_loop es (l, s))))
        by (apply replay_loop_reachable, reach_reset, Hr);
      destruct (replay_loop es (l, s)) as [loc this']
  end.
  exact R1.
Qed.

Lemma replay_body_bets e loc this :
  map stored_part (updatedBets (fst (replay_body e (loc, this))))
  = map stored_part (updatedBets loc) ++ [stored_part (snd e)].
Proof.
  unfold replay_body. cbv zeta.
  destruct (poolBet _ _ this) as [shares this'].
  destruct (Direction_eqb _ _); simpl; now rewrite map_app.
Qed.

Lemma replay_loop_bets entries loc this :
  map stored_part (updatedBets (fst (replay_loop entries (loc, this))))
  = map stored_part (updatedBets loc)
    ++ map (fun e => stored_part (snd e)) entries.
Proof.
  revert loc this.
  induction entries as [|e entries IH]; intros loc this.
  - simpl. now rewrite app_nil_r.
  - rewrite replay_loop_cons.
    assert (B := replay_body_bets e loc this).
    destruct (replay_body e (loc, this)) as [loc' this'].
    simpl in B. rewrite IH, B, <- app_assoc. reflexivity.
Qed.

(** [replay] annotates the trades in ascending order of id, one
    annotated copy per trade. *)
Lemma replay_bets_order this :
  map stored_part (res_bets (fst (replay this)))
  = map (fun e => stored_part (snd e))
      (JSMap.sort_by_key (JSMap.entries (bets this))).
Proof.
  unfold replay.
  match goal with
  | |- context [replay_loop ?es (?l, ?s)] =>
      assert (B := replay_loop_bets es l s);
      destruct (replay_loop es (l, s)) as [loc this']
  end.
  exact B.
Qed.

(** C9. On every reachable ledger: the ids are [0 .. size - 1]; [placeBet]
    returns normally and puts the new trade at the end under the id
    [size]; the order in which [replay] goes through the trades is
    ascending in id and is the insertion order; [updateBet] changes no id,
    no position and no trade but the one it is called on. *)
Theorem ledger_order this :
  reachable this ->
  JSMap.keys (bets this) = seq 0 (JSMap.size (bets this))
  /\ (forall now amount dir cmt ts,
        JSMap.entries (bets (snd (placeBet now amount dir cmt ts this)))
        = JSMap.entries (bets this)
          ++ [(JSMap.size (bets this),
               fst (placeBet now amount dir cmt ts this))])
  /\ StronglySorted (@JSMap.key_le (Bet num))
       (JSMap.sort_by_key (JSMap.entries (bets this)))
  /\ JSMap.sort_by_key (JSMap.entries (bets this)) = JSMap.entries (bets this)
  /\ map stored_part (res_bets (fst (replay this)))
     = map (fun e => stored_part (snd e)) (JSMap.entries (bets this))
  /\ (forall lt amount dir cmt,
        JSMap.keys (bets (snd (updateBet lt amount dir cmt this)))
        = JSMap.keys (bets this)
        /\ forall lt', lt' <> lt ->
             JSMap.get (bets (snd (updateBet lt amount dir cmt this))) lt'
             = JSMap.get (bets this) lt').
Proof.
  intros Hr. assert (Hc := reachable_contiguous Hr).
  assert (Hs := JSMap_sort_contiguous (bets this) Hc).
  repeat split.
  - exact Hc.
  - intros. now apply placeBet_appends.
  - apply JSMap_sort_ascending.
  - exact Hs.
  - rewrite replay_bets_order. now rewrite Hs.
  - apply updateBet_keys.
  - intros lt' Hne. now apply updateBet_others.
Qed.
End EngineFacts.

(** ** The engine on real numbers *)
Section RealFacts.
Local Open Scope R_scope.
Implicit Types (this : MarketLogic R).

Lemma ln_2_pos : 0 < ln 2.
Proof. pose proof ln_lt_2. lra. Qed.






(** The genesis constant: [log2(512) * log2(512) = 81]. *)
Lemma log2_512 : log2 512 = 9.
Proof.
  unfold log2. replace 512 with (2 ^ 9) by (simpl; lra).
  rewrite ln_pow by lra. simpl INR. field.
  pose proof ln_2_pos. lra.
Qed.

Lemma genesis_k : log2 512 * log2 512 = 81.
Proof. rewrite log2_512. lra. Qed.





End RealFacts.

(** ** The callers of the ledger: amounts and documents *)
Section ViewFacts.
Context {num : Type} {JSNum : JSNumber num}.
Implicit Types (this : MarketLogic num).

Lemma placeBet_records this now amount dir cmt ts :
  mana (size (fst (placeBet now amount dir cmt ts this))) = amount
  /\ JSMap.get (bets (snd (placeBet now amount dir cmt ts this)))
       (JSMap.size (bets this))
     = Some (fst (placeBet now amount dir cmt ts this)).
Proof.
  split; [reflexivity|]. unfold placeBet. simpl. apply JSMap_get_set_same.
Qed.

(** C6, as the code has it.  Neither [placeBet] nor [updateBet] looks at
    the amount: the test [isNaN(amount) || amount <= 0] is made by the
    two click listeners, which for such an amount return before calling
    the ledger and so leave it as it was.  Called with such an amount,
    [placeBet] stores a trade of that amount under the id [size], and
    [updateBet] stores the amount in the trade it is called on. *)
Theorem amount_validation this now index amount dir text cmt ts :
  isNaN amount || num_leb amount (num_of_Z 0) = true ->
  betButton_click now amount dir text this = this
  /\ saveButton_click index amount dir text this = (Normal tt, this)
  /\ mana (size (fst (placeBet now amount dir cmt ts this))) = amount
  /\ JSMap.get (bets (snd (placeBet now amount dir cmt ts this)))
       (JSMap.size (bets this))
     = Some (fst (placeBet now amount dir cmt ts this))
  /\ (forall bet, JSMap.get (bets this) index = Some bet ->
      exists bet',
        fst (updateBet index amount dir cmt this) = Normal bet'
        /\ mana (size bet') = amount
        /\ JSMap.get (bets (snd (updateBet index amount dir cmt this))) index
           = Some bet').
Proof.
  intros Hguard.
  split; [unfold betButton_click; now rewrite Hguard|].
  split; [unfold saveButton_click; now rewrite Hguard|].
  split; [apply placeBet_records|].
  split; [apply placeBet_records|].
  intros bet Hget. eexists.
  rewrite (updateBet_present _ _ _ _ _ Hget). simpl.
  repeat split. apply JSMap_get_set_same.
Qed.

(** A document on which [JSON.parse] throws is replaced by the default
    market with an empty ledger. *)
Lemma setViewData_unparseable JSON_parse clock content e :
  JSON_parse content = Throw e ->
  setViewData JSON_parse clock content
  = {| market := Some default_market; logic := Some new_MarketLogic |}.
Proof.
  intros Hp. unfold setViewData, setViewData_try. now rewrite Hp.
Qed.

(** So is a document that parses to a falsy value, to a value without a
    list under [bets], or to a primitive. *)
Lemma setViewData_no_bets JSON_parse clock content doc :
  JSON_parse content = Normal doc ->
  (forall items, get_prop (Some doc) "bets" <> Normal (Some (JArr items))) ->
  setViewData JSON_parse clock content
  = {| market := Some default_market; logic := Some new_MarketLogic |}.
Proof.
  intros Hp Hb. unfold setViewData, setViewData_try. rewrite Hp.
  cbn [bindC]. destruct (truthy doc); cbn [negb]; [|reflexivity].
  destruct (get_prop (Some doc) "bets") as [[[| | | |items|]|]|];
    try reflexivity.
  now destruct (Hb items).
Qed.

(** After [setViewData] the market is an object, so that the assignments
    of [drawMe] to its fields are assignments to an object. *)
Lemma setViewData_market_object JSON_parse clock content :
  exists fields,
    market (setViewData JSON_parse clock content) = Some (JObj fields).
Proof.
  unfold setViewData, setViewData_try.
  destruct (JSON_parse content) as [doc|e]; simpl;
    [|eexists; reflexivity].
  destruct (truthy doc); simpl; [|eexists; reflexivity].
  destruct doc as [| | | | |fields]; simpl; try (eexists; reflexivity).
  destruct (own_property fields "bets") as [[| | | |items|]|]; simpl;
    try (eexists; reflexivity).
  destruct (forEach_place clock items 0 (Some new_MarketLogic));
    simpl; eexists; reflexivity.
Qed.

(** The default market goes through the update of [drawMe]. *)
Lemma drawMe_update_default :
  exists v,
    drawMe_update {| market := Some default_market;
                     logic := Some new_MarketLogic |}
    = Some (Normal v).
Proof. eexists. reflexivity. Qed.

(** C8, at the document [{"bets":[]}].  The document is not a market
    snapshot (it has no name, pool, odds or shares), yet the [try] block
    completes on it: the market is the document itself and not the default
    market, and the update of the market in [drawMe], which [setViewData]
    calls outside the [try], throws a [TypeError] at
    [this.market.pool.k]. *)
Theorem setViewData_bets_only JSON_parse clock content :
  JSON_parse content = Normal bets_only_document ->
  is_MarketData (@bets_only_document num) = false
  /\ setViewData JSON_parse clock content
     = {| market := Some bets_only_document; logic := Some new_MarketLogic |}
  /\ market (setViewData JSON_parse clock content) <> Some default_market
  /\ drawMe_update (setViewData JSON_parse clock content)
     = Some (Throw TypeError).
Proof.
  intros Hp.
  assert (E : setViewData JSON_parse clock content
              = {| market := Some bets_only_document;
                   logic := Some new_MarketLogic |}).
  { unfold setViewData, setViewData_try. now rewrite Hp. }
  rewrite E. repeat split.
  simpl. unfold bets_only_document, default_market. discriminate.
Qed.
End ViewFacts.

(** ** Instances on the real numbers *)
Section Instances.
Local Open Scope R_scope.

Lemma Rleb_true x y : x <= y -> Rleb x y = true.
Proof. intros Hxy. unfold Rleb. now destruct (Rle_dec x y). Qed.

(** The constant of the default market is 81. *)
Lemma default_market_k :
  get_prop (Some (@default_market R _)) "pool"
  = Normal (Some (JObj [("yesShares"%string, JNum 512);
                        ("noShares"%string, JNum 512);
                        ("k"%string, JNum (log2 512 * log2 512))]))
  /\ log2 512 * log2 512 = 81.
Proof. split; [reflexivity | apply genesis_k]. Qed.

(** C6 does not hold of the ledger itself: on a new ledger
    [placeBet(-5, 'YES')] changes the ledger and stores a trade of amount
    -5 under id 0, and [updateBet(0, 0, 'NO')] then stores the amount 0 in
    it. *)
Lemma ledger_accepts_nonpositive_amount :
  let this := @new_MarketLogic R _ in
  let placed := placeBet "2025-01-01T00:00:00.000Z" (-5) YES None None this in
  let amended := updateBet 0 0 NO None (snd placed) in
  -5 <= 0
  /\ bets (snd placed) <> bets this
  /\ JSMap.get (bets (snd placed)) 0%nat = Some (fst placed)
  /\ mana (size (fst placed)) = -5
  /\ exists bet',
       fst amended = Normal bet'
       /\ mana (size bet') = 0
       /\ JSMap.get (bets (snd amended)) 0%nat = Some bet'.
Proof.
  simpl. repeat split; try lra.
  - discriminate.
  - eexists. repeat split.
Qed.


(** A ledger of one trade: its id is 0, a second trade gets the id 1, and
    amending leaves the ids alone. *)
Lemma ledger_order_one_trade :
  let this :=
    snd (placeBet "2025-01-01T00:00:00.000Z" 10 YES (Some "first"%string) None
           (@new_MarketLogic R _)) in
  reachable this
  /\ JSMap.keys (bets this) = [0%nat]
  /\ JSMap.keys (bets (snd (placeBet "2025-01-02T00:00:00.000Z" 20 NO None None this)))
     = [0%nat; 1%nat]
  /\ JSMap.sort_by_key (JSMap.entries (bets this)) = JSMap.entries (bets this)
  /\ JSMap.keys (bets (snd (updateBet 0 30 NO None this))) = [0%nat].
Proof.
  intros this.
  assert (Hr : reachable this) by (apply reach_placeBet, reach_new).
  destruct (ledger_order Hr) as (Hkeys & Happ & _ & Hsort & _ & Hupd).
  split; [exact Hr|].
  split; [exact Hkeys|].
  split.
  - pose proof (Happ "2025-01-02T00:00:00.000Z"%string 20 NO None None) as A.
    unfold JSMap.entries in A. unfold JSMap.keys. rewrite A. reflexivity.
  - split; [exact Hsort|].
    destruct (Hupd 0%nat 30 NO None) as (Hk & _).
    rewrite Hk. exact Hkeys.
Defined.

(** Amending the only trade of a ledger without a comment: the timestamp
    stays, the comment "first" is gone. *)
Lemma updateBet_fields_one_trade :
  let placed :=
    placeBet "2025-01-01T00:00:00.000Z" 10 YES (Some "first"%string) None
      (@new_MarketLogic R _) in
  JSMap.get (bets (snd placed)) 0%nat = Some (fst placed)
  /\ comment (fst placed) = Some "first"%string
  /\ exists bet',
       JSMap.get (bets (snd (updateBet 0 30 NO None (snd placed)))) 0%nat
       = Some bet'
       /\ timestamp bet' = "2025-01-01T00:00:00.000Z"%string
       /\ comment bet' = None.
Proof.
  intros placed.
  assert (Hget : JSMap.get (bets (snd placed)) 0%nat = Some (fst placed))
    by reflexivity.
  split; [exact Hget|]. split; [reflexivity|].
  destruct (updateBet_fields _ _ 30 NO None Hget)
    as (bet' & Hstored & Hts & _ & _ & _ & _ & _ & _ & Hcmt).
  exists bet'. split; [exact Hstored|].
  split; [exact Hts | exact (Hcmt eq_refl)].
Defined.

(** Amending id 3 of a new ledger fails and changes nothing. *)
Lemma updateBet_spec_absent :
  let this := @new_MarketLogic R _ in
  fst (updateBet 3 10 NO None this) = Throw (Error "Bet not found")
  /\ snd (updateBet 3 10 NO None this) = this
  /\ replay (snd (updateBet 3 10 NO None this)) = replay this.
Proof. exact (updateBet_spec (@new_MarketLogic R _) 3 10 NO None). Defined.

(** The amount 0 in the two listeners and in the ledger. *)
Lemma amount_validation_zero :
  let this := @new_MarketLogic R _ in
  let now := "2025-01-01T00:00:00.000Z"%string in
  isNaN 0 || num_leb 0 (num_of_Z 0) = true
  /\ betButton_click now 0 YES "hello"%string this = this
  /\ saveButton_click 0 0 YES "hello"%string this = (Normal tt, this)
  /\ JSMap.size (bets (snd (placeBet now 0 YES None None this))) = 1%nat.
Proof.
  intros this now.
  assert (Hguard : isNaN 0 || num_leb 0 (num_of_Z 0) = true)
    by (simpl; apply Rleb_true; lra).
  destruct (amount_validation this now 0%nat 0 YES "hello"%string None None Hguard)
    as (Hbet & Hsave & _).
  repeat split; assumption.
Defined.

(** The document [{"bets":[]}] under a parser that reads it. *)
Lemma setViewData_bets_only_run :
  let quote := String (Ascii.ascii_of_nat 34) EmptyString in
  let content := ("{" ++ quote ++ "bets" ++ quote ++ ":[]}")%string in
  let JSON_parse := fun _ : string => Normal (@bets_only_document R) in
  let clock := fun _ : nat => "2025-01-01T00:00:00.000Z"%string in
  JSON_parse content = Normal bets_only_document
  /\ market (setViewData JSON_parse clock content) <> Some default_market
  /\ drawMe_update (setViewData JSON_parse clock content)
     = Some (Throw TypeError).
Proof.
  intros quote content JSON_parse clock.
  assert (Hp : JSON_parse content = Normal bets_only_document) by reflexivity.
  destruct (setViewData_bets_only JSON_parse clock content Hp)
    as (_ & _ & Hm & Hd).
  repeat split; assumption.
Defined.
End Instances.

(** * Further properties of the engine, for any arithmetic *)
Section ReplayBehaviour.
Context {num : Type} {JSNum : JSNumber num}.
Implicit Types (this : MarketLogic num) (loc : ReplayLocals num).

Lemma odds_chain_snoc (s m : num) (l : list (Bet num)) b :
  odds_chain s l m -> log2oddsBefore b = m ->
  odds_chain s (l ++ [b]) (log2oddsAfter b).
Proof.
  revert s. induction l as [|x l IH]; simpl; intros s Hc Hb.
  - subst. auto.
  - destruct Hc as [Hx Hc]. split; [exact Hx | now apply IH].
Qed.

Lemma replay_body_chain e loc this (s : num) :
  odds_chain s (updatedBets loc) (log2odds (computeState this)) ->
  odds_chain s (updatedBets (fst (replay_body e (loc, this))))
    (log2odds (computeState (snd (replay_body e (loc, this))))).
Proof.
  intros Hc. unfold replay_body. cbv zeta.
  destruct (poolBet _ _ this) as [shares this'].
  destruct (Direction_eqb _ _); simpl;
    (eapply odds_chain_snoc; [exact Hc | reflexivity]).
Qed.

Lemma replay_loop_chain entries loc this (s : num) :
  odds_chain s (updatedBets loc) (log2odds (computeState this)) ->
  odds_chain s (updatedBets (fst (replay_loop entries (loc, this))))
    (log2odds (computeState (snd (replay_loop entries (loc, this))))).
Proof.
  revert loc this.
  induction entries as [|e entries IH]; intros loc this Hc; [exact Hc|].
  rewrite replay_loop_cons.
  assert (C := @replay_body_chain e loc this s Hc).
  destruct (replay_body e (loc, this)) as [loc' this'].
  now apply IH.
Qed.

(** X11. The annotated trades of [replay] form one chain of odds: the
    first starts at the odds of the genesis pool, each one starts where
    the one before it ended, and the last ends at the odds of the state
    that [replay] leaves, which [drawMe] then reads with [computeState]. *)
Theorem replay_odds_chain this :
  odds_chain
    (log2odds (computeState (set_pool this (num_of_Z 512, num_of_Z 512))))
    (res_bets (fst (replay this)))
    (log2odds (computeState (snd (replay this)))).
Proof.
  unfold replay.
  match goal with
  | |- context [replay_loop ?es (?l, ?s)] =>
      assert (C := @replay_loop_chain es l s
                     (log2odds (computeState s)) eq_refl);
      destruct (replay_loop es (l, s)) as [loc this']
  end.
  exact C.
Qed.

(** X12. [replay] changes neither the ledger nor the constant, only the
    pool, and returns one annotated trade for each trade of the ledger:
    the trades stored in the ledger keep the derived fields they had. *)
Theorem replay_leaves_ledger this :
  bets (snd (replay this)) = bets this
  /\ k (snd (replay this)) = k this
  /\ List.length (res_bets (fst (replay this))) = JSMap.size (bets this).
Proof.
  split; [rewrite replay_frame; reflexivity|].
  split; [rewrite replay_frame; reflexivity|].
  rewrite <- (length_map stored_part), replay_bets_order, length_map.
  symmetry. apply Permutation_length, JSMap_sort_perm.
Qed.

Lemma JSMap_get_nth (V : Type) (m : JSMap.t V) start :
  JSMap.keys m = seq start (JSMap.size m) ->
  forall i, JSMap.get m (start + i) = option_map snd (nth_error m i).
Proof.
  revert start. induction m as [|[k0 v] rest IH]; intros start Hk i.
  - now destruct i.
  - simpl in Hk. injection Hk as Hk0 Hrest. subst k0.
    destruct i as [|j]; simpl.
    + now rewrite Nat.add_0_r, Nat.eqb_refl.
    + assert (E : Nat.eqb start (start + S j) = false)
        by (apply Nat.eqb_neq; lia).
      rewrite E. rewrite <- Nat.add_succ_comm. now apply IH.
Qed.

(** X13. On a reachable ledger the position of an annotated trade in the
    result of [replay] is its id: the [i]-th annotated trade is the copy
    of the trade stored under id [i], and there is none when the id is
    absent.  The chart passes this position to [updateBet]. *)
Theorem replay_index_is_id this i :
  reachable this ->
  nth_error (map stored_part (res_bets (fst (replay this)))) i
  = option_map stored_part (JSMap.get (bets this) i).
Proof.
  intros Hr. assert (Hc := reachable_contiguous Hr).
  rewrite replay_bets_order, (JSMap_sort_contiguous _ Hc).
  pose proof (@JSMap_get_nth _ (bets this) 0 Hc i) as G.
  rewrite Nat.add_0_l in G. rewrite G.
  unfold JSMap.entries. rewrite nth_error_map.
  now destruct (nth_error (bets this) i).
Qed.

Lemma JSMap_contiguous_get (V : Type) (m : JSMap.t V) i :
  JSMap.keys m = seq 0 (JSMap.size m) ->
  (JSMap.get m i <> None <-> i < JSMap.size m).
Proof.
  intros Hk. rewrite JSMap_get_In_keys, Hk, in_seq. lia.
Qed.

(** X14. The listener of the "Save" button on a reachable ledger, for an
    amount that passes its test: for an index below the size it
    completes, the trade under that id has the new amount and direction
    and the comment typed (none for the empty text), and no id moves; for
    an index from the size on it throws [Error('Bet not found')] and
    leaves the object as it was. *)
Theorem saveButton_click_valid this index amount dir text :
  reachable this ->
  isNaN amount || num_leb amount (num_of_Z 0) = false ->
  (index < JSMap.size (bets this) ->
   exists bet',
     fst (saveButton_click index amount dir text this) = Normal tt
     /\ JSMap.get (bets (snd (saveButton_click index amount dir text this)))
          index = Some bet'
     /\ mana (size bet') = amount
     /\ direction (size bet') = dir
     /\ comment bet' = (if String.eqb text EmptyString then None else Some text)
     /\ JSMap.keys (bets (snd (saveButton_click index amount dir text this)))
        = JSMap.keys (bets this))
  /\ (JSMap.size (bets this) <= index ->
      saveButton_click index amount dir text this
      = (Throw (Error "Bet not found"), this)).
Proof.
  intros Hr Hguard. assert (Hc := reachable_contiguous Hr).
  unfold saveButton_click. rewrite Hguard. split.
  - intros Hlt. apply (JSMap_contiguous_get _ _ Hc) in Hlt.
    destruct (JSMap.get (bets this) index) as [bet|] eqn:Hget; [|congruence].
    assert (K := updateBet_keys this index amount dir
                   (if String.eqb text EmptyString then None else Some text)).
    rewrite (updateBet_present _ _ _ _ _ Hget) in *. simpl in K.
    eexists. split; [reflexivity|].
    cbn [snd]. rewrite replay_frame. cbn [bets set_pool set_bets].
    split; [apply JSMap_get_set_same|].
    repeat split. exact K.
  - intros Hge.
    assert (Hget : JSMap.get (bets this) index = None).
    { destruct (JSMap.get (bets this) index) eqn:E; auto.
      assert (index < JSMap.size (bets this))
        by (apply (JSMap_contiguous_get _ _ Hc); congruence).
      lia. }
    now rewrite (updateBet_absent _ _ _ _ _ Hget).
Qed.
End ReplayBehaviour.

(** * Further properties of the load path and of the listeners *)
Section LoadBehaviour.
Context {num : Type} {JSNum : JSNumber num}.
Implicit Types (this : MarketLogic num) (fields : list (string * json num)).
Local Open Scope string_scope.

Lemma own_property_assign_same fields key v :
  own_property (assign fields key v) key = Some v.
Proof.
  unfold own_property.
  induction fields as [|[k0 x] rest IH]; simpl.
  - now rewrite String.eqb_refl.
  - destruct (String.eqb k0 key) eqn:E; simpl; rewrite E; auto.
Qed.

Lemma own_property_assign_other fields key v key' :
  key' <> key ->
  own_property (assign fields key v) key' = own_property fields key'.
Proof.
  intros Hne. unfold own_property.
  induction fields as [|[k0 x] rest IH]; simpl.
  - destruct (String.eqb key key') eqn:E; auto.
    apply String.eqb_eq in E. congruence.
  - destruct (String.eqb k0 key) eqn:E; simpl.
    + apply String.eqb_eq in E. subst k0.
      destruct (String.eqb key key') eqn:E'; auto.
      apply String.eqb_eq in E'. congruence.
    + destruct (String.eqb k0 key'); auto.
Qed.

(** Reading back a trade written by [json_of_Bet]. *)
Lemma place_from_document_encoded now (b : Bet num) this :
  place_from_document now (json_of_Bet b) (Some this)
  = Normal (Some (snd (placeBet now (mana (size b)) (direction (size b))
                         (comment b) (Some (timestamp b)) this))).
Proof.
  destruct b as [ts [m d] c s1 s2 s3].
  destruct c; destruct d; reflexivity.
Qed.

Lemma forEach_place_encoded clock (bs : list (Bet num)) lt this :
  contiguous this ->
  exists this',
    forEach_place clock (map json_of_Bet bs) lt (Some this)
    = Normal (Some this')
    /\ contiguous this'
    /\ map (fun e => stored_part (snd e)) (JSMap.entries (bets this'))
       = (map (fun e => stored_part (snd e)) (JSMap.entries (bets this))
          ++ map stored_part bs)%list.
Proof.
  revert lt this. induction bs as [|b bs IH]; intros lt this Hc.
  - exists this. simpl. now rewrite app_nil_r.
  - cbn [map forEach_place]. rewrite place_from_document_encoded. cbn [bindC].
    set (placed := placeBet (clock lt) (mana (size b)) (direction (size b))
                     (comment b) (Some (timestamp b)) this).
    destruct (IH (S lt) (snd placed) (placeBet_contiguous _ _ _ _ _ Hc))
      as (this' & Hrun & Hc' & Hparts).
    exists this'. split; [exact Hrun|]. split; [exact Hc'|].
    rewrite Hparts. unfold placed. rewrite (placeBet_appends _ _ _ _ _ Hc).
    rewrite map_app, <- app_assoc.
    destruct b as [ts [m d] c s1 s2 s3]. reflexivity.
Qed.

(** X15. Loading a document whose [bets] are trades as [replay] writes
    them rebuilds the ledger in document order: the market is the
    document, the ids are [0 .. n - 1], and the trade under id [i] has
    the timestamp, amount, direction and comment of the [i]-th entry. *)
Theorem setViewData_rebuilds JSON_parse clock content fields (bs : list (Bet num)) :
  JSON_parse content = Normal (JObj fields) ->
  own_property fields "bets" = Some (JArr (map json_of_Bet bs)) ->
  exists this,
    setViewData JSON_parse clock content
    = {| market := Some (JObj fields); logic := Some this |}
    /\ JSMap.keys (bets this) = seq 0 (List.length bs)
    /\ map (fun e => stored_part (snd e)) (JSMap.entries (bets this))
       = map stored_part bs.
Proof.
  intros Hp Hb.
  destruct (@forEach_place_encoded clock bs 0 new_MarketLogic eq_refl)
    as (this & Hrun & Hc & Hparts).
  exists this. split.
  - unfold setViewData, setViewData_try. rewrite Hp. cbn [bindC truthy negb].
    cbn [get_prop]. rewrite Hb. cbn [bindC]. now rewrite Hrun.
  - split; [|exact Hparts].
    unfold contiguous in Hc. rewrite Hc. f_equal.
    unfold JSMap.size, JSMap.entries in *.
    rewrite <- (length_map (fun e => stored_part (snd e))), Hparts.
    simpl. apply length_map.
Qed.

Lemma place_from_document_readable now bet lg :
  bet_readable bet = true ->
  exists lg', place_from_document now bet lg = Normal lg'.
Proof.
  unfold place_from_document, bet_readable.
  destruct bet as [| | | | |fields]; try discriminate.
  cbn [get_prop bindC].
  destruct (own_property fields "size") as [[| | | | |]|];
    try discriminate; intros _; cbn [get_prop bindC]; eexists; reflexivity.
Qed.

Lemma place_from_document_unreadable now bet lg :
  bet_readable bet = false ->
  place_from_document now bet lg = Throw TypeError.
Proof.
  unfold place_from_document, bet_readable.
  destruct bet as [| | | | |fields]; try reflexivity.
  cbn [get_prop bindC].
  destruct (own_property fields "size") as [[| | | | |]|];
    try discriminate; reflexivity.
Qed.

Lemma forEach_place_readable clock items lt lg :
  forallb bet_readable items = true ->
  exists lg', forEach_place clock items lt lg = Normal lg'.
Proof.
  revert lt lg. induction items as [|bet items IH]; intros lt lg Hall.
  - eexists. reflexivity.
  - simpl in Hall. apply andb_true_iff in Hall as [Hb Hrest].
    destruct (place_from_document_readable (clock lt) bet lg Hb) as (lg1 & E).
    cbn [forEach_place]. rewrite E. cbn [bindC]. now apply IH.
Qed.

Lemma forEach_place_unreadable clock items lt lg :
  forallb bet_readable items = false ->
  forEach_place clock items lt lg = Throw TypeError.
Proof.
  revert lt lg. induction items as [|bet items IH]; intros lt lg Hall.
  - discriminate.
  - simpl in Hall. cbn [forEach_place].
    destruct (bet_readable bet) eqn:Hb.
    + destruct (place_from_document_readable (clock lt) bet lg Hb) as (lg1 & E).
      rewrite E. cbn [bindC]. now apply IH.
    + now rewrite place_from_document_unreadable.
Qed.

(** X16. For a document that parses to an object with a list under
    [bets]: when every entry is an object whose [size] is neither absent
    nor [null], the market is the document; when one entry is not, the
    document is dropped as a whole, with the trades placed before that
    entry: the market is the default market and the ledger is new. *)
Theorem setViewData_keeps_or_drops JSON_parse clock content fields items :
  JSON_parse content = Normal (JObj fields) ->
  own_property fields "bets" = Some (JArr items) ->
  if forallb bet_readable items
  then market (setViewData JSON_parse clock content) = Some (JObj fields)
  else setViewData JSON_parse clock content
       = {| market := Some default_market; logic := Some new_MarketLogic |}.
Proof.
  intros Hp Hb. unfold setViewData, setViewData_try.
  rewrite Hp. cbn [bindC truthy negb get_prop]. rewrite Hb. cbn [bindC].
  destruct (forallb bet_readable items) eqn:Hall.
  - destruct (forEach_place_readable clock items 0 (Some new_MarketLogic) Hall)
      as (lg' & E).
    now rewrite E.
  - now rewrite forEach_place_unreadable.
Qed.

(** X17. The update of the market in [drawMe], for a market that is an
    object: it throws a [TypeError] exactly when the market has no [pool]
    or a [null] one; otherwise it completes, the ledger is the replayed
    one, [bets] are the annotated trades, [log2odds] the odds after the
    replay, the sides of [pool] those of the engine, while [k] is the
    one the document had (none if it had none) and [name] is kept. *)
Theorem drawMe_update_pool fields this :
  let view := {| market := Some (JObj fields); logic := Some this |} in
  match own_property fields "pool" with
  | None => drawMe_update view = Some (Throw TypeError)
  | Some JNull => drawMe_update view = Some (Throw TypeError)
  | Some p =>
      exists fields' kv,
        drawMe_update view
        = Some (Normal {| market := Some (JObj fields');
                          logic := Some (snd (replay this)) |})
        /\ get_prop (Some p) "k" = Normal kv
        /\ own_property fields' "pool"
           = Some (JObj ([("yesShares", JNum (fst (getPool (snd (replay this)))));
                          ("noShares", JNum (snd (getPool (snd (replay this)))))]
                         ++ match kv with
                            | Some x => [("k", x)]
                            | None => []
                            end)%list)
        /\ own_property fields' "bets"
           = Some (JArr (map json_of_Bet (res_bets (fst (replay this)))))
        /\ own_property fields' "log2odds"
           = Some (JNum (log2odds (computeState (snd (replay this)))))
        /\ own_property fields' "name" = own_property fields "name"
  end.
Proof.
  intros view. unfold drawMe_update, view. cbn [market logic truthy negb].
  destruct (replay this) as [r lg] eqn:R. cbn [fst snd set_prop bindC get_prop].
  set (f1 := assign fields "bets" (JArr (map json_of_Bet (res_bets r)))).
  set (f2 := assign f1 "log2odds" (JNum (log2odds (computeState lg)))).
  set (us := if num_gtb (yesShares r) (noShares r) then yesShares r
             else num_neg (noShares r)).
  set (f3 := assign f2 "userShares" (JNum us)).
  assert (Hpool : own_property f3 "pool" = own_property fields "pool").
  { unfold f3, f2, f1.
    rewrite !own_property_assign_other by discriminate. reflexivity. }
  rewrite Hpool.
  assert (Hfinal : forall kv,
    let newPool :=
      JObj ([("yesShares", JNum (fst (getPool lg)));
             ("noShares", JNum (snd (getPool lg)))]
            ++ match kv with Some x => [("k", x)] | None => [] end)%list in
    own_property (assign f3 "pool" newPool) "pool" = Some newPool
    /\ own_property (assign f3 "pool" newPool) "bets"
       = Some (JArr (map json_of_Bet (res_bets r)))
    /\ own_property (assign f3 "pool" newPool) "log2odds"
       = Some (JNum (log2odds (computeState lg)))
    /\ own_property (assign f3 "pool" newPool) "name"
       = own_property fields "name").
  { intros kv newPool. split; [apply own_property_assign_same|].
    unfold f3, f2, f1. repeat split.
    - rewrite !own_property_assign_other by discriminate.
      apply own_property_assign_same.
    - rewrite !own_property_assign_other by discriminate.
      apply own_property_assign_same.
    - rewrite !own_property_assign_other by discriminate. reflexivity. }
  destruct (own_property fields "pool") as [[| b | x | s | items | pf]|];
    try reflexivity; cbn [bindC get_prop].
  - exists (assign f3 "pool" (JObj [("yesShares", JNum (fst (getPool lg)));
                                    ("noShares", JNum (snd (getPool lg)))])).
    exists None. split; [reflexivity|]. split; [reflexivity|].
    exact (Hfinal None).
  - exists (assign f3 "pool" (JObj [("yesShares", JNum (fst (getPool lg)));
                                    ("noShares", JNum (snd (getPool lg)))])).
    exists None. split; [reflexivity|]. split; [reflexivity|].
    exact (Hfinal None).
  - exists (assign f3 "pool" (JObj [("yesShares", JNum (fst (getPool lg)));
                                    ("noShares", JNum (snd (getPool lg)))])).
    exists None. split; [reflexivity|]. split; [reflexivity|].
    exact (Hfinal None).
  - exists (assign f3 "pool" (JObj [("yesShares", JNum (fst (getPool lg)));
                                    ("noShares", JNum (snd (getPool lg)))])).
    exists None. split; [reflexivity|]. split; [reflexivity|].
    exact (Hfinal None).
  - eexists. exists (own_property pf "k").
    split; [reflexivity|]. split; [reflexivity|].
    exact (Hfinal (own_property pf "k")).
Qed.
End LoadBehaviour.

Section CallersBehaviour.
Context {num : Type} {JSNum : JSNumber num}.
Implicit Types (this : MarketLogic num).

(** X18. The trades stored in a reachable ledger are never annotated:
    under every id the three derived fields are 0, as [placeBet] set
    them.  [replay] annotates the copies it returns, and the record that
    [updateBet] returns is a stored one. *)
Theorem ledger_unannotated this lt bet :
  reachable this ->
  JSMap.get (bets this) lt = Some bet ->
  unannotated bet.
Proof.
  intros Hr. revert lt bet.
  induction Hr as [|this now amount dir cmt ts _ IH
                   |this lt0 amount dir cmt _ IH
                   |this _ IH
                   |this amount flip _ IH]; intros lt bet Hget.
  - discriminate.
  - unfold placeBet in Hget. cbn [snd bets set_bets] in Hget.
    destruct (Nat.eq_dec lt (JSMap.size (bets this))) as [->|Hne].
    + rewrite JSMap_get_set_same in Hget. injection Hget as <-.
      repeat split.
    + rewrite JSMap_get_set_other in Hget by exact Hne. eauto.
  - destruct (JSMap.get (bets this) lt0) as [bet0|] eqn:H0.
    + rewrite (updateBet_present _ _ _ _ _ H0) in Hget.
      cbn [snd bets set_bets] in Hget.
      destruct (Nat.eq_dec lt lt0) as [->|Hne].
      * rewrite JSMap_get_set_same in Hget. injection Hget as <-.
        exact (IH _ _ H0).
      * rewrite JSMap_get_set_other in Hget by exact Hne. eauto.
    + rewrite (updateBet_absent _ _ _ _ _ H0) in Hget. eauto.
  - eauto.
  - rewrite poolBet_frame in Hget. eauto.
Qed.

Lemma place_from_document_reachable now bet lg lg' :
  (forall l, lg = Some l -> reachable l) ->
  place_from_document now bet lg = Normal lg' ->
  forall l', lg' = Some l' -> reachable l'.
Proof.
  intros Hlg. unfold place_from_document.
  destruct (get_prop (Some bet) "size") as [sz|]; cbn [bindC]; [|discriminate].
  destruct (get_prop sz "mana") as [m|]; cbn [bindC]; [|discriminate].
  destruct (get_prop sz "direction") as [d|]; cbn [bindC]; [|discriminate].
  destruct (get_prop (Some bet) "comment") as [c|]; cbn [bindC]; [|discriminate].
  destruct (get_prop (Some bet) "timestamp") as [ts|]; cbn [bindC]; [|discriminate].
  intros E l' ->. injection E as E.
  destruct lg as [l|]; [|discriminate].
  destruct (typed_args m d c ts) as [[[[amount dir] cmt] tsv]|]; [|discriminate].
  injection E as <-. apply reach_placeBet. now apply Hlg.
Qed.

Lemma forEach_place_reachable clock items lt lg lg' :
  (forall l, lg = Some l -> reachable l) ->
  forEach_place clock items lt lg = Normal lg' ->
  forall l', lg' = Some l' -> reachable l'.
Proof.
  revert lt lg. induction items as [|bet items IH]; intros lt lg Hlg.
  - cbn [forEach_place]. intros E. injection E as <-. exact Hlg.
  - cbn [forEach_place].
    destruct (place_from_document (clock lt) bet lg) as [lg1|] eqn:E1;
      cbn [bindC]; [|discriminate].
    apply IH. exact (place_from_document_reachable _ _ Hlg E1).
Qed.

(** X20. The two listeners keep the ledger reachable, whatever they are
    given; the "Place Bet" listener, for an amount that passes its test,
    adds one trade with that amount under the id [size]. *)
Theorem listeners_reachable this now index amount dir text :
  reachable this ->
  reachable (betButton_click now amount dir text this)
  /\ reachable (snd (saveButton_click index amount dir text this))
  /\ (isNaN amount || num_leb amount (num_of_Z 0) = false ->
      exists bet,
        JSMap.entries (bets (betButton_click now amount dir text this))
        = JSMap.entries (bets this) ++ [(JSMap.size (bets this), bet)]
        /\ mana (size bet) = amount
        /\ direction (size bet) = dir).
Proof.
  intros Hr. unfold betButton_click, saveButton_click.
  destruct (isNaN amount || num_leb amount (num_of_Z 0)).
  - repeat split; try exact Hr. discriminate.
  - set (cmt := if String.eqb text EmptyString then None else Some text).
    split; [|split].
    + destruct (placeBet now amount dir cmt None this) as [bet this'] eqn:E.
      apply replay_reachable.
      change this' with (snd (bet, this')). rewrite <- E.
      now apply reach_placeBet.
    + assert (Hu := reach_updateBet index amount dir cmt Hr).
      destruct (updateBet index amount dir cmt this) as [[b|e] this'];
        cbn [snd] in *; [now apply replay_reachable | exact Hu].
    + intros _.
      assert (A := placeBet_appends now amount dir cmt None
                     (reachable_contiguous Hr)).
      destruct (placeBet now amount dir cmt None this) as [bet this'] eqn:E.
      exists bet. cbn [fst snd] in A.
      rewrite replay_frame. cbn [bets set_pool].
      rewrite A. repeat split.
      * change bet with (fst (bet, this')). now rewrite <- E.
      * change bet with (fst (bet, this')). now rewrite <- E.
Qed.
End CallersBehaviour.

(** ** Instances of the further properties *)
Section FurtherInstances.
Local Open Scope R_scope.

Lemma Rleb_false x y : y < x -> Rleb x y = false.
Proof. intros Hxy. unfold Rleb. destruct (Rle_dec x y); [lra | reflexivity]. Qed.

(** A ledger of one trade: the annotated trade at position 0 is the copy
    of the trade under id 0. *)
Lemma replay_index_is_id_one_trade :
  let placed :=
    placeBet "2025-01-01T00:00:00.000Z" 10 YES (Some "first"%string) None
      (@new_MarketLogic R _) in
  reachable (snd placed)
  /\ nth_error (map stored_part (res_bets (fst (replay (snd placed))))) 0
     = Some (stored_part (fst placed)).
Proof.
  intros placed.
  assert (Hr : reachable (snd placed)) by (apply reach_placeBet, reach_new).
  split; [exact Hr|].
  exact (@replay_index_is_id R _ (snd placed) 0%nat Hr).
Defined.

(** Saving the amount 30 on the only trade, and on an index past it. *)
Lemma saveButton_click_one_trade :
  let this :=
    snd (placeBet "2025-01-01T00:00:00.000Z" 10 YES (Some "first"%string) None
           (@new_MarketLogic R _)) in
  reachable this
  /\ isNaN 30 || num_leb 30 (num_of_Z 0) = false
  /\ fst (saveButton_click 0 30 NO EmptyString this) = Normal tt
  /\ saveButton_click 1 30 NO EmptyString this
     = (Throw (Error "Bet not found"), this).
Proof.
  intros this.
  assert (Hr : reachable this) by (apply reach_placeBet, reach_new).
  assert (Hg : isNaN 30 || num_leb 30 (num_of_Z 0) = false)
    by (simpl; apply Rleb_false; lra).
  destruct (@saveButton_click_valid R _ this 0%nat 30 NO EmptyString Hr Hg)
    as (Hin & _).
  destruct (@saveButton_click_valid R _ this 1%nat 30 NO EmptyString Hr Hg)
    as (_ & Hout).
  destruct (Hin (Nat.lt_0_succ 0)) as (bet' & Hok & _).
  split; [exact Hr|]. split; [exact Hg|].
  split; [exact Hok | exact (Hout (le_n 1))].
Defined.

(** Loading a document with one annotated trade. *)
Lemma setViewData_rebuilds_one_trade :
  let b : Bet R :=
    {| timestamp := "2025-01-01T00:00:00.000Z";
       size := {| mana := 10; direction := NO |};
       comment := Some "first"%string;
       sharesReceived := 12; log2oddsBefore := 0; log2oddsAfter := -1 |} in
  let fields := [("bets"%string, JArr (map json_of_Bet [b]))] in
  let JSON_parse := fun _ : string => Normal (JObj fields) in
  let clock := fun _ : nat => "2025-02-02T00:00:00.000Z"%string in
  JSON_parse "document"%string = Normal (JObj fields)
  /\ own_property fields "bets" = Some (JArr (map json_of_Bet [b]))
  /\ exists this,
       logic (setViewData JSON_parse clock "document") = Some this
       /\ JSMap.keys (bets this) = [0%nat]
       /\ map (fun e => stored_part (snd e)) (JSMap.entries (bets this))
          = [stored_part b].
Proof.
  intros b fields JSON_parse clock.
  assert (Hp : JSON_parse "document"%string = Normal (JObj fields))
    by reflexivity.
  assert (Hb : own_property fields "bets" = Some (JArr (map json_of_Bet [b])))
    by reflexivity.
  split; [exact Hp|]. split; [exact Hb|].
  destruct (@setViewData_rebuilds R _ JSON_parse clock "document" fields [b]
              Hp Hb)
    as (this & Hv & Hk & Hs).
  exists this. rewrite Hv. repeat split; assumption.
Defined.

(** A document whose second entry is [null] is dropped as a whole. *)
Lemma setViewData_drops_null_entry :
  let entry : json R :=
    JObj [("size"%string, JObj [("mana"%string, JNum 10);
                                ("direction"%string, JStr "YES")])] in
  let fields := [("bets"%string, JArr [entry; JNull])] in
  let JSON_parse := fun _ : string => Normal (JObj fields) in
  let clock := fun _ : nat => "2025-02-02T00:00:00.000Z"%string in
  JSON_parse "document"%string = Normal (JObj fields)
  /\ own_property fields "bets" = Some (JArr [entry; JNull])
  /\ setViewData JSON_parse clock "document"
     = {| market := Some default_market; logic := Some new_MarketLogic |}.
Proof.
  intros entry fields JSON_parse clock.
  assert (Hp : JSON_parse "document"%string = Normal (JObj fields))
    by reflexivity.
  assert (Hb : own_property fields "bets" = Some (JArr [entry; JNull]))
    by reflexivity.
  split; [exact Hp|]. split; [exact Hb|].
  exact (@setViewData_keeps_or_drops R _ JSON_parse clock "document" fields
           [entry; JNull] Hp Hb).
Defined.

(** The trade under id 0 after an amendment has no derived fields. *)
Lemma ledger_unannotated_amended :
  let this0 :=
    snd (placeBet "2025-01-01T00:00:00.000Z" 10 YES None None
           (@new_MarketLogic R _)) in
  let amended := updateBet 0 30 NO None (snd (replay this0)) in
  reachable (snd amended)
  /\ exists bet,
       JSMap.get (bets (snd amended)) 0%nat = Some bet /\ unannotated bet.
Proof.
  intros this0 amended.
  assert (Hr : reachable (snd amended)).
  { apply reach_updateBet, replay_reachable, reach_placeBet, reach_new. }
  split; [exact Hr|].
  assert (Hget : JSMap.get (bets (snd amended)) 0%nat
                 = Some {| timestamp := "2025-01-01T00:00:00.000Z";
                           size := {| mana := 30; direction := NO |};
                           comment := None;
                           sharesReceived := 0; log2oddsBefore := 0;
                           log2oddsAfter := 0 |}).
  { unfold amended. rewrite (replay_frame this0). reflexivity. }
  eexists. split; [exact Hget|].
  exact (@ledger_unannotated R _ (snd amended) 0%nat _ Hr Hget).
Defined.

(** Placing 25 on YES through the listener of the button. *)
Lemma listeners_reachable_first_bet :
  let this := @new_MarketLogic R _ in
  let now := "2025-01-01T00:00:00.000Z"%string in
  reachable this
  /\ isNaN 25 || num_leb 25 (num_of_Z 0) = false
  /\ reachable (betButton_click now 25 YES "go" this)
  /\ JSMap.keys (bets (betButton_click now 25 YES "go" this)) = [0%nat].
Proof.
  intros this now.
  assert (Hr : reachable this) by constructor.
  assert (Hg : isNaN 25 || num_leb 25 (num_of_Z 0) = false)
    by (simpl; apply Rleb_false; lra).
  destruct (@listeners_reachable R _ this now 0%nat 25 YES "go" Hr)
    as (Hb & _ & Happ).
  destruct (Happ Hg) as (bet & He & _).
  split; [exact Hr|]. split; [exact Hg|]. split; [exact Hb|].
  unfold JSMap.keys. unfold JSMap.entries in He. rewrite He. reflexivity.
Defined.
End FurtherInstances.

(** ** Amounts below zero *)
Section SignedAmounts.
Local Open Scope R_scope.
Implicit Types (this : MarketLogic R).

Lemma insert_by_key_abs e l :
  JSMap.insert_by_key (abs_entry e) (map abs_entry l)
  = map abs_entry (JSMap.insert_by_key e l).
Proof.
  induction l as [|x l IH]; simpl; auto.
  destruct (Nat.leb (fst e) (fst x)); simpl; [reflexivity|].
  now rewrite IH.
Qed.

Lemma sort_by_key_abs l :
  JSMap.sort_by_key (map abs_entry l) = map abs_entry (JSMap.sort_by_key l).
Proof.
  induction l as [|e l IH]; simpl; auto.
  now rewrite IH, insert_by_key_abs.
Qed.

Lemma replay_body_abs e st st' :
  traded_alike st st' ->
  traded_alike (replay_body e st) (replay_body (abs_entry e) st').
Proof.
  destruct st as [loc [[y n] k0 l]], st' as [loc' [[y' n'] k0' l']].
  unfold traded_alike. simpl.
  intros (Hp & Hk & Hsy & Hsn & Hbets).
  injection Hp as -> ->. subst k0'.
  unfold replay_body, poolBet, computeState. cbv zeta.
  simpl. rewrite Rabs_Rabsolu.
  destruct (direction (size (snd e))) eqn:D; simpl;
    rewrite !map_app, Hbets, Hsy, Hsn; repeat split;
    simpl; unfold trading_part; simpl; rewrite D; reflexivity.
Qed.

Lemma replay_loop_abs entries st st' :
  traded_alike st st' ->
  traded_alike (replay_loop entries st)
    (replay_loop (map abs_entry entries) st').
Proof.
  revert st st'. induction entries as [|e entries IH]; intros st st' Ha.
  - exact Ha.
  - cbn [map]. rewrite !replay_loop_cons.
    apply IH. now apply replay_body_abs.
Qed.

(** X21. [replay] trades the absolute value of every amount: replacing
    each amount of a ledger by its absolute value changes neither the
    two totals of the result, nor the shares and odds of any trade, nor
    the pool that is left.  Only [mana] sees the sign. *)
Theorem replay_abs_amounts this :
  yesShares (fst (replay (abs_ledger this))) = yesShares (fst (replay this))
  /\ noShares (fst (replay (abs_ledger this))) = noShares (fst (replay this))
  /\ map trading_part (res_bets (fst (replay (abs_ledger this))))
     = map trading_part (res_bets (fst (replay this)))
  /\ getPool (snd (replay (abs_ledger this))) = getPool (snd (replay this)).
Proof.
  unfold replay, abs_ledger. cbn [bets set_pool set_bets JSMap.entries].
  unfold JSMap.entries. rewrite sort_by_key_abs.
  match goal with
  | |- context [replay_loop (map abs_entry ?es) (?l, ?s')] =>
      match goal with
      | |- context [replay_loop es (l, ?s)] =>
          assert (A : traded_alike (replay_loop es (l, s))
                        (replay_loop (map abs_entry es) (l, s')))
            by (apply replay_loop_abs; repeat split);
          destruct (replay_loop es (l, s)) as [loc1 this1];
          destruct (replay_loop (map abs_entry es) (l, s')) as [loc2 this2]
      end
  end.
  destruct A as (Hp & _ & Hsy & Hsn & Hb). simpl in *.
  unfold getPool. rewrite Hsy, Hsn. repeat split; auto.
Qed.
End SignedAmounts.

(** * The totals of [replay], for any arithmetic *)
Section Totals.
Context {num : Type} {JSNum : JSNumber num}.
Implicit Types (this : MarketLogic num) (loc : ReplayLocals num).
Local Open Scope num_scope.

Lemma shares_total_snoc d (l : list (Bet num)) b :
  shares_total d (l ++ [b])
  = if Direction_eqb (direction (size b)) d
    then shares_total d l + sharesReceived b
    else shares_total d l.
Proof. unfold shares_total. now rewrite fold_left_app. Qed.

Lemma mana_total_snoc (l : list (Bet num)) b :
  mana_total (l ++ [b])
  = if Direction_eqb (direction (size b)) NO
    then mana_total l + mana (size b)
    else mana_total l - mana (size b).
Proof. unfold mana_total. now rewrite fold_left_app. Qed.

Lemma replay_body_locals e loc this :
  locals_are_totals loc ->
  locals_are_totals (fst (replay_body e (loc, this))).
Proof.
  unfold locals_are_totals. intros (Hy & Hn & Hm).
  unfold replay_body. cbv zeta.
  destruct (poolBet _ _ this) as [shares this'].
  destruct (direction (size (snd e))) eqn:D; simpl;
    rewrite !shares_total_snoc, mana_total_snoc; simpl; rewrite D; simpl;
    rewrite <- Hy, <- Hn, <- Hm; repeat split.
Qed.

Lemma replay_loop_locals entries loc this :
  locals_are_totals loc ->
  locals_are_totals (fst (replay_loop entries (loc, this))).
Proof.
  revert loc this.
  induction entries as [|e entries IH]; intros loc this Ht; [exact Ht|].
  rewrite replay_loop_cons.
  assert (T := @replay_body_locals e loc this Ht).
  destruct (replay_body e (loc, this)) as [loc' this'].
  now apply IH.
Qed.

Lemma replay_totals this :
  let r := fst (replay this) in
  let total_y := shares_total YES (res_bets r) in
  let total_n := shares_total NO (res_bets r) in
  yesShares r = total_y - Math_min total_y total_n
  /\ noShares r = total_n - Math_min total_y total_n
  /\ res_mana r = mana_total (res_bets r).
Proof.
  unfold replay.
  match goal with
  | |- context [replay_loop ?es (?l, ?s)] =>
      assert (T : locals_are_totals (fst (replay_loop es (l, s))))
        by (apply replay_loop_locals; repeat split);
      destruct (replay_loop es (l, s)) as [loc this']
  end.
  destruct T as (Hy & Hn & Hm). simpl in *.
  rewrite <- Hy, <- Hn, <- Hm. repeat split.
Qed.

(** The netting at the end of [replay], for any arithmetic that has the
    laws of [FiniteLaws]: the two totals of the result are the
    accumulated totals less their minimum, and their minimum is a zero
    when both accumulated totals are finite. *)
Lemma replay_netting_laws {FL : @FiniteLaws num JSNum} this :
  let r := fst (replay this) in
  let total_y := shares_total YES (res_bets r) in
  let total_n := shares_total NO (res_bets r) in
  yesShares r = total_y - Math_min total_y total_n
  /\ noShares r = total_n - Math_min total_y total_n
  /\ (finite total_y -> finite total_n ->
      num_eqb (Math_min (yesShares r) (noShares r)) (num_of_Z 0) = true).
Proof.
  intros r total_y total_n.
  destruct (replay_totals this) as (Hy & Hn & _).
  fold r total_y total_n in Hy, Hn.
  split; [exact Hy|]. split; [exact Hn|].
  intros Fy Fn. rewrite Hy, Hn.
  destruct (min_smaller total_y total_n Fy Fn) as [[-> Hle]|[-> Hle]].
  - apply min_zero_l; [now apply sub_self | now apply sub_nonneg].
  - apply min_zero_r; [now apply sub_self | now apply sub_nonneg].
Qed.

(** X10. For every ledger and any arithmetic, [mana] in the result of
    [replay] is the running sum, in ledger order and from 0, that adds
    the amount of each NO trade and subtracts the amount of each YES
    trade. *)
Theorem replay_mana_total this :
  res_mana (fst (replay this)) = mana_total (res_bets (fst (replay this))).
Proof. exact (proj2 (proj2 (replay_totals this))). Qed.

(** X2. No method writes the constant: in every reachable state [k] is
    the product [Math.log2(512) * Math.log2(512)] that the constructor
    computed. *)
Theorem reachable_k this :
  reachable this ->
  k this = Math_log2 (num_of_Z 512) * Math_log2 (num_of_Z 512).
Proof.
  induction 1 as [|this now amount dir cmt ts _ IH
                  |this lt amount dir cmt _ IH
                  |this _ IH
                  |this amount flip _ IH].
  - reflexivity.
  - exact IH.
  - destruct (JSMap.get (bets this) lt) as [bet|] eqn:Hget.
    + now rewrite (updateBet_present _ _ _ _ _ Hget).
    + now rewrite (updateBet_absent _ _ _ _ _ Hget).
  - exact IH.
  - rewrite poolBet_frame. exact IH.
Qed.



End Totals.

(** * The program on doubles, the formulas on reals *)
Section OnDoubles.
Local Open Scope string_scope.


(** C5 does not hold of the program.  With the trades 1.7e308 YES,
    1.7e308 YES and 1.7e308 NO both accumulated totals overflow to
    Infinity, their minimum is Infinity, and both [yesShares] and
    [noShares] are [Infinity - Infinity], that is NaN: their minimum is
    not [== 0]. *)
Lemma replay_netting_overflow_double :
  let r := fst (replay double_ledger_overflow) in
  shares_total YES (res_bets r) = PrimFloat.infinity
  /\ shares_total NO (res_bets r) = PrimFloat.infinity
  /\ isNaN (yesShares r) = true
  /\ isNaN (noShares r) = true
  /\ num_eqb (Math_min (yesShares r) (noShares r)) (num_of_Z 0) = false.
Proof. intros r. repeat split; vm_compute; reflexivity. Qed.

(** Two trades on doubles, BUY_YES 50 then BUY_NO 50: the mana deltas
    cancel. *)
Example replay_two_trades_mana :
  let this0 : MarketLogic PrimFloat.float := new_MarketLogic in
  let this1 :=
    snd (placeBet "2025-01-01T00:00:00.000Z" (Double.of_Z 50) YES None None this0) in
  let this2 :=
    snd (placeBet "2025-01-02T00:00:00.000Z" (Double.of_Z 50) NO None None this1) in
  res_mana (fst (replay this2)) = Double.of_Z 0
  /\ List.length (res_bets (fst (replay this2))) = 2%nat.
Proof. split; vm_compute; reflexivity. Qed.

(** At genesis, on doubles, the odds are even: probability 1/2 and 0
    bits. *)
Example computeState_genesis :
  probability (computeState (@new_MarketLogic PrimFloat.float _))
  = Double.decimal 5 1
  /\ log2odds (computeState (@new_MarketLogic PrimFloat.float _))
     = Double.of_Z 0.
Proof. split; vm_compute; reflexivity. Qed.

(** On doubles the constant of a reachable ledger is exactly 81. *)
Lemma reachable_k_double :
  reachable double_ledger_10_YES
  /\ k double_ledger_10_YES = Double.of_Z 81.
Proof.
  assert (Hr : reachable double_ledger_10_YES)
    by apply replay_reachable, reach_placeBet, reach_new.
  split; [exact Hr|].
  rewrite (reachable_k Hr). vm_compute. reflexivity.
Defined.

End OnDoubles.

Section OnReals.
Local Open Scope R_scope.

Lemma Rleb_spec x y : Rleb x y = true <-> x <= y.
Proof. unfold Rleb. destruct (Rle_dec x y); split; auto; discriminate. Qed.

Lemma Reqb_spec x y : Reqb x y = true <-> x = y.
Proof. unfold Reqb. destruct (Req_dec_T x y); split; auto; discriminate. Qed.

(** Exact arithmetic has the laws of the netting, every real number
    being finite. *)
#[export] Instance R_finite_laws : @FiniteLaws R R_number.
Proof.
  refine (@Build_FiniteLaws R R_number (fun _ => True) _ _ _ _ _); simpl.
  - intros x y _ _. destruct (Rle_dec x y) as [Hle|Hgt].
    + left. split; [now apply Rmin_left | now apply Rleb_spec].
    + right. split; [apply Rmin_right; lra | apply Rleb_spec; lra].
  - intros x _. apply Reqb_spec. lra.
  - intros x y _ _ Hle. apply Rleb_spec in Hle. apply Rleb_spec. lra.
  - intros z w Hz Hw. apply Reqb_spec in Hz. apply Rleb_spec in Hw.
    apply Reqb_spec. subst z. apply Rmin_left. exact Hw.
  - intros z w Hz Hw. apply Reqb_spec in Hz. apply Rleb_spec in Hw.
    apply Reqb_spec. subst z. apply Rmin_right. exact Hw.
Defined.
End OnReals.

(** * The laws of the netting on doubles

    From the specification of the primitive operations by [SpecFloat]:
    the difference of a finite number with itself is a zero, the
    difference [y - x] of finite numbers with [x <= y] is not below zero
    (rounding a non-negative integer multiple of a power of two never
    yields a negative number), and [Math.min] returns one of its
    operands. *)
Section DoubleLaws.
Local Unset Implicit Arguments.
Local Open Scope Z_scope.
Import SpecFloat.
Local Abbreviation P2 := FloatOps.Prim2SF.
Local Abbreviation prec := FloatOps.prec.
Local Abbreviation emax := FloatOps.emax.

Lemma finite_plain x : PrimFloat.is_finite x = true -> Double.plain (P2 x) = true.
Proof.
  unfold PrimFloat.is_finite, FloatOps.Prim2SF.
  destruct (PrimFloat.is_nan x); [discriminate|].
  destruct (PrimFloat.is_infinity x); [discriminate|]. intros _.
  destruct (PrimFloat.is_zero x); [reflexivity|].
  destruct (FloatOps.Z.frexp x) as [r e].
  destruct (shr_fexp _ _ _ _ _) as [s e'].
  destruct (shr_m s); reflexivity.
Qed.

Lemma SFleb_zero x : SFleb (S754_zero false) x = Double.not_below_zero x.
Proof. destruct x as [s|s| |s m e]; try destruct s; reflexivity. Qed.

Lemma SFeqb_zero x : SFeqb x (S754_zero false) = true -> exists s, x = S754_zero s.
Proof.
  destruct x as [s|s| |s m e]; try destruct s; try discriminate; eauto.
Qed.

Lemma SFcompare_refl x : x <> S754_nan -> SFcompare x x = Some Eq.
Proof.
  destruct x as [s|s| |s m e]; try destruct s; try reflexivity; try congruence;
    intros _; simpl; rewrite Z.compare_refl, Pos.compare_cont_refl; reflexivity.
Qed.

Lemma SFcompare_antisym x y c :
  SFcompare x y = Some c -> SFcompare y x = Some (CompOpp c).
Proof.
  destruct x as [s|s| |s m e], y as [s'|s'| |s' m' e']; simpl;
    try discriminate;
    try (destruct s; intros E; injection E as <-; reflexivity);
    try (destruct s'; intros E; injection E as <-; reflexivity);
    try (destruct s, s'; intros E; injection E as <-; reflexivity).
  assert (Hm : Pos.compare_cont Eq m' m = CompOpp (Pos.compare_cont Eq m m'))
    by (rewrite Pos.compare_cont_antisym; reflexivity).
  rewrite (Z.compare_antisym e e'), Hm.
  destruct s, s'; intros E; injection E as <-; try reflexivity;
    destruct (e ?= e'); simpl; try reflexivity;
    destruct (Pos.compare_cont Eq m m'); reflexivity.
Qed.

Lemma SFcompare_total x y :
  x <> S754_nan -> y <> S754_nan -> exists c, SFcompare x y = Some c.
Proof.
  destruct x as [s|s| |s m e], y as [s'|s'| |s' m' e']; try congruence;
    intros _ _; simpl; eauto.
Qed.

Lemma not_nan_refl x : x <> S754_nan -> SFeqb x x = true.
Proof. intros H. unfold SFeqb. now rewrite SFcompare_refl. Qed.

Lemma plain_not_nan x : Double.plain x = true -> x <> S754_nan.
Proof. destruct x; simpl; congruence. Qed.

Lemma not_below_zero_not_nan x : Double.not_below_zero x = true -> x <> S754_nan.
Proof. destruct x; simpl; congruence. Qed.

Lemma is_nan_spec x : PrimFloat.is_nan x = negb (SFeqb (P2 x) (P2 x)).
Proof. unfold PrimFloat.is_nan. now rewrite FloatAxioms.eqb_spec. Qed.

Lemma is_nan_false x : P2 x <> S754_nan -> PrimFloat.is_nan x = false.
Proof. intros H. rewrite is_nan_spec, not_nan_refl; auto. Qed.

(* x - x *)
Lemma SFsub_diag x :
  Double.plain x = true -> exists s, SFsub prec emax x x = S754_zero s.
Proof.
  destruct x as [s|s| |s m e]; try discriminate; intros _.
  - destruct s; eexists; reflexivity.
  - simpl. rewrite Z.min_id. unfold shl_align. rewrite Z.sub_diag. simpl.
    eexists. reflexivity.
Qed.

Lemma iter_pos_keeps {A : Type} (Q : A -> Prop) (f : A -> A) :
  (forall x, Q x -> Q (f x)) -> forall p x, Q x -> Q (iter_pos f p x).
Proof.
  intros Hf. induction p as [p IH|p IH|]; intros x Hx; simpl; auto.
Qed.

Lemma shr_1_nonneg mrs : 0 <= shr_m mrs -> 0 <= shr_m (shr_1 mrs).
Proof.
  destruct mrs as [m r s]. simpl.
  destruct m as [|[p|p|]|[p|p|]]; simpl; lia.
Qed.

Lemma shr_fexp_nonneg m e l :
  0 <= m -> 0 <= shr_m (fst (shr_fexp prec emax m e l)).
Proof.
  intros Hm. unfold shr_fexp, shr.
  assert (H0 : 0 <= shr_m (shr_record_of_loc m l))
    by (destruct l as [|[| |]]; exact Hm).
  destruct (fexp prec emax (Zdigits2 m + e) - e) as [|p|p]; simpl; auto.
  now apply (iter_pos_keeps (fun r => 0 <= shr_m r) shr_1 shr_1_nonneg).
Qed.

Lemma round_nearest_even_nonneg m l : 0 <= m -> 0 <= round_nearest_even m l.
Proof.
  intros Hm. unfold round_nearest_even.
  destruct l as [|[| |]]; try lia. destruct (Z.even m); lia.
Qed.

Lemma binary_round_aux_nonneg m e l :
  0 <= m -> Double.not_below_zero (binary_round_aux prec emax false m e l) = true.
Proof.
  intros Hm. unfold binary_round_aux.
  assert (H1 := shr_fexp_nonneg m e l Hm).
  destruct (shr_fexp prec emax m e l) as [mrs' e']. simpl in H1.
  assert (H2 := shr_fexp_nonneg _ e' loc_Exact
                  (round_nearest_even_nonneg _ (loc_of_shr_record mrs') H1)).
  destruct (shr_fexp prec emax _ e' loc_Exact) as [mrs'' e'']. simpl in H2.
  destruct (shr_m mrs''); try reflexivity; [|lia].
  destruct (e'' <=? emax - prec); reflexivity.
Qed.

Lemma binary_normalize_nonneg d e :
  0 <= d -> Double.not_below_zero (binary_normalize prec emax d e false) = true.
Proof.
  intros Hd. destruct d as [|p|p]; simpl; [reflexivity| |lia].
  unfold binary_round. destruct (shl_align _ _ _) as [mz ez].
  apply binary_round_aux_nonneg. lia.
Qed.

Lemma digits2_pos_bounds m :
  2 ^ (Z.pos (digits2_pos m) - 1) <= Z.pos m < 2 ^ Z.pos (digits2_pos m).
Proof.
  induction m as [m IH|m IH|]; simpl digits2_pos.
  - rewrite Pos2Z.inj_succ.
    replace (Z.succ (Z.pos (digits2_pos m)) - 1)
      with (Z.succ (Z.pos (digits2_pos m) - 1)) by lia.
    rewrite !Z.pow_succ_r by lia. lia.
  - rewrite Pos2Z.inj_succ.
    replace (Z.succ (Z.pos (digits2_pos m)) - 1)
      with (Z.succ (Z.pos (digits2_pos m) - 1)) by lia.
    rewrite !Z.pow_succ_r by lia. lia.
  - simpl. lia.
Qed.

Lemma iter_xO_value m d : Z.pos (Pos.iter xO m d) = Z.pos m * 2 ^ Z.pos d.
Proof.
  induction d as [|d IH] using Pos.peano_ind.
  - simpl. lia.
  - rewrite Pos.iter_succ, Pos2Z.inj_succ, Z.pow_succ_r by lia.
    rewrite Pos2Z.inj_xO, IH. lia.
Qed.

Lemma shl_align_value m e ez :
  ez <= e -> Z.pos (fst (shl_align m e ez)) = Z.pos m * 2 ^ (e - ez).
Proof.
  intros Hle. unfold shl_align.
  destruct (ez - e) as [|p|p] eqn:E; simpl.
  - replace (e - ez) with 0 by lia. simpl. lia.
  - lia.
  - rewrite iter_xO_value. replace (e - ez) with (Z.pos p) by lia. reflexivity.
Qed.

(* a valid finite number: at most [prec] digits, exactly [prec] above the
   least exponent *)
Lemma valid_digits m e :
  bounded prec emax m e = true ->
  Z.pos m < 2 ^ 53 /\ (emin prec emax < e -> 2 ^ 52 <= Z.pos m)
  /\ emin prec emax <= e.
Proof.
  unfold bounded, canonical_mantissa, fexp.
  intros H. apply andb_true_iff in H as [H _]. apply Z.eqb_eq in H.
  assert (B := digits2_pos_bounds m).
  set (d := Z.pos (digits2_pos m)) in *.
  assert (Hd : 0 < d) by (unfold d; lia).
  change (Z.pos 53) with 53 in *.
  unfold FloatOps.prec in *.
  destruct (Z.max_spec (d + e - 53) (emin 53 emax)) as [[Hlt Hmax]|[Hge Hmax]];
    rewrite Hmax in H.
  - split; [|split; [lia|lia]].
    assert (d <= 53) by lia.
    assert (2 ^ d <= 2 ^ 53) by (apply Z.pow_le_mono_r; lia). lia.
  - assert (d = 53) by lia.
    replace d with 53 in B by lia. change (53 - 1) with 52 in B.
    split; [lia|]. split; [lia|lia].
Qed.

Lemma aligned_gap m m' e e' :
  bounded prec emax m e = true -> bounded prec emax m' e' = true ->
  e < e' -> Z.pos m < Z.pos m' * 2 ^ (e' - e).
Proof.
  intros V V' Hlt.
  destruct (valid_digits m e V) as (Hm & _ & He).
  destruct (valid_digits m' e' V') as (_ & Hm' & _).
  specialize (Hm' ltac:(lia)).
  assert (2 ^ 1 <= 2 ^ (e' - e)) by (apply Z.pow_le_mono_r; lia).
  change (2 ^ 1) with 2 in *.
  assert (2 ^ 53 = 2 ^ 52 * 2) by reflexivity. nia.
Qed.

(* y - x is not below zero when x <= y *)
Lemma SFsub_nonneg x y :
  Double.plain x = true -> Double.plain y = true ->
  valid_binary prec emax x = true -> valid_binary prec emax y = true ->
  SFleb x y = true ->
  Double.not_below_zero (SFsub prec emax y x) = true.
Proof.
  destruct x as [sx|sx| |sx mx ex], y as [sy|sy| |sy my ey];
    try discriminate; intros _ _ Vx Vy; unfold SFleb.
  - destruct sx, sy; reflexivity.
  - simpl. destruct sy; [discriminate | reflexivity].
  - simpl. destruct sx; [reflexivity | discriminate].
  - simpl in Vx, Vy. intros Hle.
    cbn [SFsub]. apply binary_normalize_nonneg.
    rewrite (shl_align_value my ey (Z.min ey ex)) by lia.
    rewrite (shl_align_value mx ex (Z.min ey ex)) by lia.
    cbn [SFcompare] in Hle.
    destruct sx, sy; cbn [cond_Zopp].
    + (* both negative *)
      destruct (ex ?= ey) eqn:C.
      * apply Z.compare_eq in C. subst ey. rewrite Z.min_id, Z.sub_diag.
        change (2 ^ 0) with 1.
        destruct (Pos.compare_cont Eq mx my) eqn:Cm; try discriminate.
        -- apply Pos.compare_eq in Cm. subst. lia.
        -- change (Pos.compare_cont Eq mx my) with (Pos.compare mx my) in Cm.
           rewrite Pos.compare_gt_iff in Cm. lia.
      * discriminate.
      * rewrite Z.compare_gt_iff in C.
        rewrite Z.min_l by lia. rewrite Z.sub_diag. change (2 ^ 0) with 1.
        assert (G := aligned_gap my mx ey ex Vy Vx C). lia.
    + assert (0 < Z.pos my * 2 ^ (ey - Z.min ey ex))
        by (apply Z.mul_pos_pos; [lia | apply Z.pow_pos_nonneg; lia]).
      assert (0 < Z.pos mx * 2 ^ (ex - Z.min ey ex))
        by (apply Z.mul_pos_pos; [lia | apply Z.pow_pos_nonneg; lia]).
      lia.
    + discriminate.
    + destruct (ex ?= ey) eqn:C.
      * apply Z.compare_eq in C. subst ey. rewrite Z.min_id, Z.sub_diag.
        change (2 ^ 0) with 1.
        destruct (Pos.compare_cont Eq mx my) eqn:Cm; try discriminate.
        -- apply Pos.compare_eq in Cm. subst. lia.
        -- change (Pos.compare_cont Eq mx my) with (Pos.compare mx my) in Cm.
           rewrite Pos.compare_lt_iff in Cm. lia.
      * rewrite Z.compare_lt_iff in C.
        rewrite Z.min_r by lia. rewrite Z.sub_diag. change (2 ^ 0) with 1.
        assert (G := aligned_gap mx my ex ey Vx Vy C). lia.
      * discriminate.
Qed.

Lemma P2_zero : P2 (Double.of_Z 0) = S754_zero false.
Proof. reflexivity. Qed.

Lemma finite_not_nan x :
  PrimFloat.is_finite x = true -> P2 x <> S754_nan.
Proof. intros H. apply plain_not_nan, finite_plain, H. Qed.

Lemma double_min_smaller x y :
  PrimFloat.is_finite x = true -> PrimFloat.is_finite y = true ->
  (Double.min x y = x /\ PrimFloat.leb x y = true)
  \/ (Double.min x y = y /\ PrimFloat.leb y x = true).
Proof.
  intros Fx Fy.
  assert (Nx := finite_not_nan x Fx). assert (Ny := finite_not_nan y Fy).
  unfold Double.min.
  rewrite (is_nan_false x Nx), (is_nan_false y Ny). cbn [orb].
  rewrite !FloatAxioms.ltb_spec, !FloatAxioms.leb_spec.
  destruct (SFcompare_total _ _ Nx Ny) as [c Hc].
  assert (Hc' := SFcompare_antisym _ _ _ Hc).
  unfold SFltb, SFleb. rewrite Hc, Hc'.
  destruct c; cbn [CompOpp].
  - destruct (PrimFloat.get_sign x); [left | right]; split; reflexivity.
  - left. split; reflexivity.
  - right. split; reflexivity.
Qed.

Lemma double_sub_self x :
  PrimFloat.is_finite x = true ->
  PrimFloat.eqb (PrimFloat.sub x x) (Double.of_Z 0) = true.
Proof.
  intros Fx. rewrite FloatAxioms.eqb_spec, FloatAxioms.sub_spec, P2_zero.
  destruct (SFsub_diag _ (finite_plain x Fx)) as [s Hs].
  unfold FloatAxioms.SF64sub. rewrite Hs. reflexivity.
Qed.

Lemma double_sub_nonneg x y :
  PrimFloat.is_finite x = true -> PrimFloat.is_finite y = true ->
  PrimFloat.leb x y = true ->
  PrimFloat.leb (Double.of_Z 0) (PrimFloat.sub y x) = true.
Proof.
  intros Fx Fy Hle. rewrite FloatAxioms.leb_spec in *.
  rewrite P2_zero, SFleb_zero, FloatAxioms.sub_spec.
  apply SFsub_nonneg; auto using finite_plain, FloatAxioms.Prim2SF_valid.
Qed.

Lemma double_min_zero z w :
  PrimFloat.eqb z (Double.of_Z 0) = true ->
  PrimFloat.leb (Double.of_Z 0) w = true ->
  PrimFloat.eqb (Double.min z w) (Double.of_Z 0) = true
  /\ PrimFloat.eqb (Double.min w z) (Double.of_Z 0) = true.
Proof.
  intros Hz Hw.
  assert (Hw0 := Hw). assert (Hz0 := Hz).
  rewrite FloatAxioms.eqb_spec, P2_zero in Hz.
  rewrite FloatAxioms.leb_spec, P2_zero, SFleb_zero in Hw.
  destruct (SFeqb_zero _ Hz) as [s HZ].
  assert (Nz : P2 z <> S754_nan) by (rewrite HZ; discriminate).
  assert (Nw := not_below_zero_not_nan _ Hw).
  unfold Double.min.
  rewrite (is_nan_false z Nz), (is_nan_false w Nw). cbn [orb].
  rewrite !FloatAxioms.ltb_spec, HZ.
  destruct (P2 w) as [sw|sw| |sw mw ew] eqn:HW; try discriminate.
  - (* w is a zero *)
    assert (Ew : PrimFloat.eqb w (Double.of_Z 0) = true)
      by (rewrite FloatAxioms.eqb_spec, P2_zero, HW; reflexivity).
    unfold SFltb. cbn [SFcompare]. split.
    + destruct (PrimFloat.get_sign z); assumption.
    + destruct (PrimFloat.get_sign w); assumption.
  - destruct sw; [discriminate|]. unfold SFltb. cbn [SFcompare].
    split; assumption.
  - destruct sw; [discriminate|]. unfold SFltb. cbn [SFcompare].
    split; assumption.
Qed.
End DoubleLaws.

#[export] Instance Double_finite_laws : @FiniteLaws PrimFloat.float Double_number.
Proof.
  refine (@Build_FiniteLaws PrimFloat.float Double_number
            (fun x => PrimFloat.is_finite x = true) _ _ _ _ _).
  - exact double_min_smaller.
  - exact double_sub_self.
  - exact double_sub_nonneg.
  - intros z w Hz Hw. exact (proj1 (double_min_zero z w Hz Hw)).
  - intros z w Hz Hw. exact (proj2 (double_min_zero z w Hz Hw)).
Defined.

(** C5, as the code has it, on IEEE-754 doubles.  For every ledger the
    two totals of the result are the accumulated totals less their
    minimum: [yesShares = sy - Math.min(sy, sn)] and
    [noShares = sn - Math.min(sy, sn)], where [sy] and [sn] are the
    shares of the YES and of the NO trades summed in ledger order.  When
    both accumulated totals are finite numbers (neither NaN nor an
    infinity), [Math.min(yesShares, noShares) == 0]. *)
Theorem replay_netting_finite (this : MarketLogic PrimFloat.float) :
  let r := fst (replay this) in
  let total_y := shares_total YES (res_bets r) in
  let total_n := shares_total NO (res_bets r) in
  yesShares r = PrimFloat.sub total_y (Double.min total_y total_n)
  /\ noShares r = PrimFloat.sub total_n (Double.min total_y total_n)
  /\ (PrimFloat.is_finite total_y = true ->
      PrimFloat.is_finite total_n = true ->
      PrimFloat.eqb (Double.min (yesShares r) (noShares r)) (Double.of_Z 0)
      = true).
Proof. exact (@replay_netting_laws _ _ Double_finite_laws this). Qed.

(** The trades 50 YES and 50 NO on doubles: both accumulated totals are
    finite, and the smaller total of the result is a zero. *)
Lemma replay_netting_finite_double :
  let this0 : MarketLogic PrimFloat.float := new_MarketLogic in
  let this1 :=
    snd (placeBet "2025-01-01T00:00:00.000Z" (Double.of_Z 50) YES None None this0) in
  let this2 :=
    snd (placeBet "2025-01-02T00:00:00.000Z" (Double.of_Z 50) NO None None this1) in
  let r := fst (replay this2) in
  PrimFloat.is_finite (shares_total YES (res_bets r)) = true
  /\ PrimFloat.is_finite (shares_total NO (res_bets r)) = true
  /\ PrimFloat.eqb (Double.min (yesShares r) (noShares r)) (Double.of_Z 0)
     = true.
Proof.
  intros this0 this1 this2 r.
  assert (Fy : PrimFloat.is_finite (shares_total YES (res_bets r)) = true)
    by (vm_compute; reflexivity).
  assert (Fn : PrimFloat.is_finite (shares_total NO (res_bets r)) = true)
    by (vm_compute; reflexivity).
  split; [exact Fy|]. split; [exact Fn|].
  exact (proj2 (proj2 (replay_netting_finite this2)) Fy Fn).
Defined.
